(** * Voice transcriber: the recording cycle and the transcription sweep

    A shallow embedding of [src/main.py]: the speech tracker
    ([on_voice_state_update]), the recording loop ([cycle_recording]), the
    name lookup ([get_username]) and the sweeping loop
    ([continuous_processing]) of [VoiceTranscriber].

    Conventions of the embedding.
    - Clock readings ([time.time()], [st_mtime]) and durations are integers
      counting milliseconds, so [20] seconds is [20000], the [2] second
      grace is [2000], [1.0] is [1000], [0.75] is [750] and the sleeps are
      [100] and [500].
    - The coroutines share [self.is_processing], [self.is_speaking] and
      [self.last_speech_time] with the event handler and the commands, which
      run while a loop is suspended in an [await].  A loop therefore reads
      them from a snapshot that the environment supplies afresh at every
      resumption; a run of a loop is a fold over the list of snapshots.
    - Calls into the voice provider, the transcription model and the chat
      platform may raise; the snapshot says which of them do.
    - Everything a loop does to the outside is recorded as a list of
      actions, in program order.
    - The directory [recordings/] is a finite map from file names to what
      [stat()] reports: [stat()] raises exactly on a missing file, and
      listing the directory does not raise; [unlink()] may raise.
    - No coroutine is ever cancelled: the code keeps no handle on the ones
      it spawns. *)

From Stdlib Require Import ZArith Bool Ascii.
From stdpp Require Import base option list gmap strings.

Local Open Scope Z_scope.

(** ** Constants of [cycle_recording] and [continuous_processing] *)

Definition BASE_DURATION : Z := 20000.   (* recording_duration = 20 *)
Definition GRACE_SECONDS : Z := 2000.    (* elapsed_time + 2 *)
Definition SILENCE_HOLD : Z := 1000.     (* time_since_last_speech >= 1.0 *)
Definition RECORDER_TICK : Z := 100.     (* asyncio.sleep(0.1) *)
Definition RECORDER_BACKOFF : Z := 500.  (* asyncio.sleep(0.5) in the handler *)
Definition SWEEPER_TICK : Z := 500.      (* asyncio.sleep(0.5) *)
Definition SETTLE_THRESHOLD : Z := 750.  (* file_age > 0.75 *)
Definition MIN_BYTES : Z := 1024.        (* file_size > 1024 *)

(** ** The speech tracker: [on_voice_state_update] *)

Module Tracker.

(** [self.is_speaking] and [self.last_speech_time]. *)
Record t := Mk { is_speaking : bool; last_speech_time : Z }.

(** [event.after]: the user it belongs to and its [speaking] bit. *)
Record after := After { user_id : string; speaking : bool }.

(** The handler, run at clock reading [now] for an event whose [after]
    field is [ev] ([None] when the field is empty); [self_id] is
    [self.user.id]. *)
Definition on_voice_state_update
    (self_id : string) (now : Z) (ev : option after) (tr : t) : t :=
  match ev with
  | Some a =>
      if bool_decide (user_id a = self_id) then tr
      else if speaking a then Mk true now
      else Mk false (last_speech_time tr)
  | None => Mk false (last_speech_time tr)
  end.

End Tracker.

(** ** The recording loop: [cycle_recording] *)

Module Recorder.

(** What the loop reads when it is resumed: the clock, the three shared
    attributes, and whether the provider calls made before the next
    suspension succeed. *)
Record snapshot := Snapshot {
  clock : Z;               (* time.time() *)
  is_processing : bool;    (* self.is_processing *)
  is_speaking : bool;      (* self.is_speaking *)
  last_speech_time : Z;    (* self.last_speech_time *)
  start_ok : bool;         (* voice_state.start_recording(...) returns *)
  stop_ok : bool;          (* await voice_state.stop_recording() returns *)
  flush_ok : bool          (* await new_recording returns *)
}.

Global Instance snapshot_eq_dec : EqDecision snapshot.
Proof. solve_decision. Defined.

Inductive action :=
| StartRecording           (* voice_state.start_recording(...) *)
| StopRecording            (* await voice_state.stop_recording() *)
| AwaitRecording           (* await new_recording *)
| Sleep (ms : Z)           (* await asyncio.sleep(...) *)
| LogError.                (* logger.error in the inner handler *)

Global Instance action_eq_dec : EqDecision action.
Proof. solve_decision. Defined.

(** One pass through the body of the inner [while True]. *)
Inductive tick_result :=
| Continue (recording_duration : Z)   (* sleep 0.1 and loop *)
| Break.                              (* leave the inner loop *)

Definition tick (start_time recording_duration : Z) (o : snapshot)
    : tick_result :=
  let current_time := clock o in
  let elapsed_time := current_time - start_time in
  let time_since_last_speech := current_time - last_speech_time o in
  if is_speaking o then
    Continue (Z.max recording_duration (elapsed_time + GRACE_SECONDS))
  else if (SILENCE_HOLD <=? time_since_last_speech)
          && (recording_duration <=? elapsed_time) then Break
  else Continue recording_duration.

(** The inner loop alone, over the snapshots of its ticks. *)
Inductive cycle_result :=
| Recording (recording_duration : Z)
    (* the snapshots ran out with the loop still going *)
| Stopped (recording_duration : Z) (stop_clock : Z) (rest : list snapshot).
    (* the loop broke at the tick read at [stop_clock]; [rest] was not
       consumed *)

Global Instance cycle_result_eq_dec : EqDecision cycle_result.
Proof. solve_decision. Defined.

Fixpoint inner_loop (start_time recording_duration : Z)
    (obs : list snapshot) : cycle_result :=
  match obs with
  | [] => Recording recording_duration
  | o :: rest =>
      match tick start_time recording_duration o with
      | Continue d => inner_loop start_time d rest
      | Break => Stopped recording_duration (clock o) rest
      end
  end.

Definition target_duration (r : cycle_result) : Z :=
  match r with Recording d => d | Stopped d _ _ => d end.

(** Where the coroutine is suspended. *)
Inductive state :=
| AtHead                     (* about to test [while self.is_processing] *)
| Starting                   (* in [asyncio.sleep(0.1)] after start_recording *)
| Ticking (start_time recording_duration : Z)   (* at [while True] *)
| Exited.                    (* the coroutine returned *)

Global Instance state_eq_dec : EqDecision state.
Proof. solve_decision. Defined.

(** The inner [except Exception]: log, back off, go round the outer loop. *)
Definition handler : state * list action :=
  (AtHead, [LogError; Sleep RECORDER_BACKOFF]).

(** Lines 103-106, reached by [break]. *)
Definition finish_cycle (o : snapshot) : state * list action :=
  if stop_ok o then
    if flush_ok o then (AtHead, [StopRecording; AwaitRecording])
    else (AtHead, [StopRecording; AwaitRecording] ++ handler.2)
  else (AtHead, [StopRecording] ++ handler.2).

(** From one suspension to the next. *)
Definition step (o : snapshot) (s : state) : state * list action :=
  match s with
  | AtHead =>
      if is_processing o then
        if start_ok o then (Starting, [StartRecording; Sleep RECORDER_TICK])
        else (AtHead, [StartRecording] ++ handler.2)
      else (Exited, [])
  | Starting =>
      (* recording_duration = 20; start_time = time.time().  The first tick
         follows without a suspension; it reads the next snapshot, which
         may but need not repeat this one. *)
      (Ticking (clock o) BASE_DURATION, [])
  | Ticking start_time recording_duration =>
      match tick start_time recording_duration o with
      | Continue d => (Ticking start_time d, [Sleep RECORDER_TICK])
      | Break => finish_cycle o
      end
  | Exited => (Exited, [])
  end.

Fixpoint run (obs : list snapshot) (s : state) : state * list action :=
  match obs with
  | [] => (s, [])
  | o :: rest =>
      let '(s1, a1) := step o s in
      let '(s2, a2) := run rest s1 in
      (s2, a1 ++ a2)
  end.

(** The snapshot [o] with [self.is_processing] read as [b]. *)
Definition with_is_processing (b : bool) (o : snapshot) : snapshot :=
  Snapshot (clock o) b (is_speaking o) (last_speech_time o)
    (start_ok o) (stop_ok o) (flush_ok o).

(** The target of a cycle in progress is at least the base duration. *)
Definition target_ok (s : state) : Prop :=
  match s with Ticking _ d => BASE_DURATION ≤ d | _ => True end.

(** States the coroutine can be in, started at the loop head. *)
Definition reachable (s : state) : Prop :=
  ∃ obs, (run obs AtHead).1 = s.

End Recorder.

(** ** The recorder driven by a timed sequence of voice events *)

Module Scenario.

(** A voice event delivered at clock reading [at_ms]. *)
Record timed_event := At { at_ms : Z; payload : option Tracker.after }.

(** The tracker after every event delivered up to clock reading [t], the
    events being listed in order of delivery. *)
Fixpoint tracker_at (self_id : string) (t : Z) (evs : list timed_event)
    (tr : Tracker.t) : Tracker.t :=
  match evs with
  | [] => tr
  | e :: rest =>
      if at_ms e <=? t
      then tracker_at self_id t rest
             (Tracker.on_voice_state_update self_id (at_ms e) (payload e) tr)
      else tr
  end.

(** What the recorder reads at clock reading [t] of an active session in
    which no provider call fails. *)
Definition snapshot_at (self_id : string) (evs : list timed_event)
    (tr0 : Tracker.t) (t : Z) : Recorder.snapshot :=
  let tr := tracker_at self_id t evs tr0 in
  Recorder.Snapshot t true (Tracker.is_speaking tr)
    (Tracker.last_speech_time tr) true true true.

(** The clock readings of [n] ticks, the first at [t0], one every
    [RECORDER_TICK]. *)
Definition tick_times (t0 : Z) (n : nat) : list Z :=
  (λ k : nat, t0 + RECORDER_TICK * Z.of_nat k) <$> seq 0 n.

Definition ticks (self_id : string) (evs : list timed_event)
    (tr0 : Tracker.t) (t0 : Z) (n : nat) : list Recorder.snapshot :=
  snapshot_at self_id evs tr0 <$> tick_times t0 n.

(** [n] ticks of silence, the first at [t0], read after the session flag
    was cleared. *)
Definition cleared_ticks (t0 : Z) (n : nat) : list Recorder.snapshot :=
  (λ t, Recorder.Snapshot t false false 0 true true true) <$> tick_times t0 n.

(** speaking(true)@0s, speaking(false)@3s, from a participant ["7"] other
    than the bot ["bot"]. *)
Definition speak_then_pause : list timed_event :=
  [ At 0 (Some (Tracker.After "7" true));
    At 3000 (Some (Tracker.After "7" false)) ].

End Scenario.

(** ** The string operations of Python that the sweeper uses

    A [str] is a [string] whose characters are code points below 256. *)

Module Py.

(** [c.isspace()] on the code points below 256. *)
Definition isspace (c : ascii) : bool :=
  let n := nat_of_ascii c in
  ((9 <=? n) && (n <=? 13) || (28 <=? n) && (n <=? 32)
   || (n =? 133) || (n =? 160))%nat.

Fixpoint lstrip (s : string) : string :=
  match s with
  | EmptyString => EmptyString
  | String c s' => if isspace c then lstrip s' else s
  end.

Definition rstrip (s : string) : string := String.rev (lstrip (String.rev s)).

(** [s.strip()] *)
Definition strip (s : string) : string := rstrip (lstrip s).

(** Every character of [s] is white space; so is the empty string. *)
Fixpoint whitespace_only (s : string) : bool :=
  match s with
  | EmptyString => true
  | String c s' => isspace c && whitespace_only s'
  end.

(** [if s:] *)
Definition truthy (s : string) : bool := negb (bool_decide (s = "")).

(** [sep in s] for a one-character [sep] *)
Fixpoint contains (sep : ascii) (s : string) : bool :=
  match s with
  | EmptyString => false
  | String c s' => if bool_decide (c = sep) then true else contains sep s'
  end.

(** [s.split(sep)] for a one-character [sep]: never the empty list. *)
Fixpoint split (sep : ascii) (s : string) : list string :=
  match s with
  | EmptyString => [EmptyString]
  | String c s' =>
      if bool_decide (c = sep) then EmptyString :: split sep s'
      else match split sep s' with
           | t :: ts => String c t :: ts
           | [] => [String c EmptyString]
           end
  end.

(** [s.rfind(c)]: [None] for -1. *)
Fixpoint rfind (c : ascii) (s : string) : option nat :=
  match s with
  | EmptyString => None
  | String x s' =>
      match rfind c s' with
      | Some i => Some (S i)
      | None => if bool_decide (x = c) then Some 0%nat else None
      end
  end.

(** [PurePath.stem] of a file name: the name without its last suffix; a name
    whose only dot is the first or the last character has no suffix. *)
Definition stem (name : string) : string :=
  match rfind "." name with
  | Some i =>
      if ((0 <? i) && (i <? String.length name - 1))%nat
      then String.substring 0 i name
      else name
  | None => name
  end.

(** [fnmatch(name, "*.wav")] *)
Definition is_wav (name : string) : bool :=
  String.prefix (String.rev ".wav") (String.rev name).

End Py.

(** ** Name lookup and the sweeping loop: [get_username],
    [continuous_processing] *)

Module Sweeper.

(** What [file_path.stat()] reports of a file in [recordings/]. *)
Record file := File { st_mtime : Z; st_size : Z }.

(** A call that may raise. *)
Inductive outcome (A : Type) :=
| Returns (a : A)
| Raises.
Global Arguments Returns {A} a.
Global Arguments Raises {A}.

(** A guild member as [get_username] uses it. *)
Record member := Member { display_name : option string; username : string }.

(** [member.display_name or member.username] *)
Definition display_or_username (m : member) : string :=
  match display_name m with
  | Some d => if Py.truthy d then d else username m
  | None => username m
  end.

(** What the sweeper reads and what its collaborators answer while it
    handles one file. *)
Record world := World {
  now : Z;                        (* time.time() *)
  is_speaking : bool;             (* self.is_speaking *)
  transcribe : outcome string;    (* whisper_model.transcribe(...)["text"] *)
  fetch_guild_ok : bool;          (* await self.fetch_guild(guild_id) *)
  fetch_member : outcome member;  (* await guild.fetch_member(user_id) *)
  send_ok : bool;                 (* await ctx.channel.send(...) *)
  first_unlink_ok : bool;         (* the first file_path.unlink() returns *)
  second_unlink_ok : bool         (* the second one, if there is one, does *)
}.

Inductive action :=
| Transcribe (path : string)      (* whisper_model.transcribe(str(file_path)) *)
| FetchGuild (guild_id : string)
| FetchMember (user_id : string)
| Send (content : string)         (* ctx.channel.send(content) *)
| Unlink (path : string)          (* file_path.unlink() *)
| LogError
| Sleep (ms : Z).

Global Instance action_eq_dec : EqDecision action.
Proof. solve_decision. Defined.

(** The mutable state the sweeper works on: the directory [recordings/],
    file name to file, and [self.user_cache]. *)
Record store := Store {
  staging : gmap string file;
  user_cache : gmap string string
}.

(** [get_username]: the name, the cache afterwards, what was called. It has
    no raising exit: the [except Exception] covers both fetches. *)
Definition get_username (w : world) (user_id guild_id : string)
    (cache : gmap string string)
    : string * gmap string string * list action :=
  let cache_key := user_id +:+ "_" +:+ guild_id in
  match cache !! cache_key with
  | Some cached => (cached, cache, [])
  | None =>
      if fetch_guild_ok w then
        match fetch_member w with
        | Returns m =>
            let username := display_or_username m in
            (username, <[cache_key := username]> cache,
             [FetchGuild guild_id; FetchMember user_id])
        | Raises =>
            ("User_" +:+ user_id, cache,
             [FetchGuild guild_id; FetchMember user_id; LogError])
        end
      else ("User_" +:+ user_id, cache, [FetchGuild guild_id; LogError])
  end.

(** [file_path.stem.split('_')[1] if '_' in file_path.stem else
    file_path.stem]; [None] is the [IndexError] of the subscript. *)
Definition user_id_of (stem : string) : option string :=
  if Py.contains "_" stem then Py.split "_" stem !! 1%nat else Some stem.

(** [if file_path.exists(): file_path.unlink()]: the directory afterwards,
    the call made, and whether it raised; [ok] says whether [unlink()]
    returns.  An [unlink()] that raises leaves the file where it is. *)
Definition unlink_if_exists (ok : bool) (name : string)
    (fs : gmap string file) : gmap string file * list action * bool :=
  match fs !! name with
  | Some _ =>
      if ok then (delete name fs, [Unlink name], false)
      else (fs, [Unlink name], true)
  | None => (fs, [], false)
  end.

(** The per-file [except Exception], lines 197-200, entered with cache
    [cache] after the actions [done]; [ok] says whether its [unlink()]
    returns.  The last component says whether an exception leaves it, and
    with it the [for] loop. *)
Definition handler (ok : bool) (name : string) (fs : gmap string file)
    (cache : gmap string string) (done : list action)
    : store * list action * bool :=
  let '(fs', del, raised) := unlink_if_exists ok name fs in
  (Store fs' cache, done ++ [LogError] ++ del, raised).

(** Lines 195-196, reached without an exception after the actions [done].
    When this [unlink()] raises, the handler is entered and tries again:
    its [unlink()] is then the second for this file. *)
Definition finish (w : world) (name : string) (fs : gmap string file)
    (cache : gmap string string) (done : list action)
    : store * list action * bool :=
  let '(fs', del, raised) := unlink_if_exists (first_unlink_ok w) name fs in
  if raised then handler (second_unlink_ok w) name fs' cache (done ++ del)
  else (Store fs' cache, done ++ del, false).

(** The test of line 171: [file_age > 0.75 and not self.is_speaking]. *)
Definition settled (w : world) (f : file) : bool :=
  let file_age := now w - st_mtime f in
  (SETTLE_THRESHOLD <? file_age) && negb (is_speaking w).

(** How often [a] occurs in a list of actions. *)
Definition occurrences (a : action) (acts : list action) : nat :=
  length (filter (λ x, x = a) acts).

(** What the end of the body may do for the file [name]: [fs'] is the
    directory [fs] with the file removed or not, [tail] is made of attempts
    to unlink it and of logged errors, and when the file is there, is found
    settled and its first [unlink()] returns, it is removed by one attempt
    and nothing is raised. *)
Definition cleans_up (w : world) (name : string)
    (fs fs' : gmap string file) (tail : list action) (raised : bool)
    : Prop :=
  (fs' = fs ∨ fs' = delete name fs)
  ∧ Forall (λ a, a = Unlink name ∨ a = LogError) tail
  ∧ (first_unlink_ok w = true →
     ∀ f, fs !! name = Some f → settled w f = true →
     fs' = delete name fs ∧ raised = false
     ∧ occurrences (Unlink name) tail = 1%nat).

(** The body of [for file_path in files], lines 168-200: the store and the
    log after it, and whether an exception leaves it. *)
Definition handle_file (guild_id : string) (w : world) (name : string)
    (st : store) : store * list action * bool :=
  let fs := staging st in
  let cache := user_cache st in
  match fs !! name with
  | None => handler (first_unlink_ok w) name fs cache []   (* stat() raises *)
  | Some f =>
      if settled w f then
        let file_size := st_size f in
        if MIN_BYTES <? file_size then
          match transcribe w with
          | Raises =>
              handler (first_unlink_ok w) name fs cache [Transcribe name]
          | Returns text =>
              let transcription := Py.strip text in
              if Py.truthy transcription then
                match user_id_of (Py.stem name) with
                | None =>
                    handler (first_unlink_ok w) name fs cache
                      [Transcribe name]
                | Some user_id =>
                    let '(username, cache', looked) :=
                      get_username w user_id guild_id cache in
                    let content := username +:+ ": " +:+ transcription in
                    let said :=
                      [Transcribe name] ++ looked ++ [Send content] in
                    if send_ok w then finish w name fs cache' said
                    else handler (first_unlink_ok w) name fs cache' said
                end
              else finish w name fs cache [Transcribe name]
          end
        else finish w name fs cache []
      else (st, [], false)
  end.

(** The store and the log after the body of the loop was run on one file. *)
Definition process_file (guild_id : string) (w : world) (name : string)
    (st : store) : store * list action :=
  (handle_file guild_id w name st).1.

(** The [for] loop over the listed files; [worlds] gives the world in which
    each file is handled.  An exception that leaves the body leaves the
    loop: it is logged by the outer [except Exception] of lines 202-203 and
    the files not yet reached wait for the next round. *)
Fixpoint sweep (guild_id : string) (worlds : string → world)
    (files : list string) (st : store) : store * list action :=
  match files with
  | [] => (st, [])
  | name :: rest =>
      let '(st1, a1, raised) := handle_file guild_id (worlds name) name st in
      if (raised : bool) then (st1, a1 ++ [LogError])
      else
        let '(st2, a2) := sweep guild_id worlds rest st1 in
        (st2, a1 ++ a2)
  end.

(** [list(self.recordings_dir.glob("*.wav"))], in the order of the
    directory listing. *)
Definition glob_wav (fs : gmap string file) : list string :=
  filter (λ name, Py.is_wav name = true) (map_to_list fs).*1.

(** What the loop reads when it is resumed at its head: the flag, the files
    the recorder has written since the last sweep, and the worlds of the
    files of this sweep. *)
Record snapshot := Snapshot {
  is_processing : bool;
  written : gmap string file;
  worlds : string → world
}.

Inductive state :=
| AtHead      (* about to test [while self.is_processing] *)
| Exited.

Global Instance state_eq_dec : EqDecision state.
Proof. solve_decision. Defined.

(** One round of [while self.is_processing]: a sweep, then the sleep. *)
Definition step (guild_id : string) (o : snapshot) (c : state * store)
    : state * store * list action :=
  let '(s, st) := c in
  match s with
  | AtHead =>
      if is_processing o then
        let st0 := Store (written o ∪ staging st) (user_cache st) in
        let '(st', acts) :=
          sweep guild_id (worlds o) (glob_wav (staging st0)) st0 in
        (AtHead, st', acts ++ [Sleep SWEEPER_TICK])
      else (Exited, st, [])
  | Exited => (Exited, st, [])
  end.

Fixpoint run (guild_id : string) (obs : list snapshot) (c : state * store)
    : state * store * list action :=
  match obs with
  | [] => (c, [])
  | o :: rest =>
      let '(c1, a1) := step guild_id o c in
      let '(c2, a2) := run guild_id rest c1 in
      (c2, a1 ++ a2)
  end.

End Sweeper.

(** ** The tracker over a sequence of voice events *)

Module Events.

(** The event is one of the bot's own, which the handler ignores. *)
Definition own (self_id : string) (e : Scenario.timed_event) : bool :=
  match Scenario.payload e with
  | Some a => bool_decide (Tracker.user_id a = self_id)
  | None => false
  end.

(** [event.after and event.after.speaking] *)
Definition speaks (e : Scenario.timed_event) : bool :=
  match Scenario.payload e with
  | Some a => Tracker.speaking a
  | None => false
  end.

(** The handler run on every event of [evs], in order of delivery, each at
    its own clock reading. *)
Fixpoint deliver (self_id : string) (evs : list Scenario.timed_event)
    (tr : Tracker.t) : Tracker.t :=
  match evs with
  | [] => tr
  | e :: rest =>
      deliver self_id rest
        (Tracker.on_voice_state_update self_id (Scenario.at_ms e)
           (Scenario.payload e) tr)
  end.

End Events.

(** ** Reading the recorder's log *)

Module RecorderLog.

(** What the loop does other than sleeping. *)
Definition is_call (a : Recorder.action) : bool :=
  match a with Recorder.Sleep _ => false | _ => true end.

(** The log without its sleeps, in the order of the log. *)
Definition calls (acts : list Recorder.action) : list Recorder.action :=
  filter (λ a, is_call a = true) acts.

(** A complete cycle as the voice provider sees it: lines 69, 105, 106. *)
Definition cycle_calls : list Recorder.action :=
  [Recorder.StartRecording; Recorder.StopRecording; Recorder.AwaitRecording].

(** Every [LogError] of the log is directly followed by the back-off sleep
    of 0.5 s. *)
Fixpoint backoff_follows (acts : list Recorder.action) : bool :=
  match acts with
  | [] => true
  | Recorder.LogError :: rest =>
      match rest with
      | Recorder.Sleep ms :: _ => (ms =? RECORDER_BACKOFF) && backoff_follows rest
      | _ => false
      end
  | _ :: rest => backoff_follows rest
  end.

(** The loop is inside a cycle: a capture was started and not yet stopped. *)
Definition in_cycle (s : Recorder.state) : bool :=
  match s with
  | Recorder.Starting | Recorder.Ticking _ _ => true
  | Recorder.AtHead | Recorder.Exited => false
  end.

(** No provider call of the snapshot raises. *)
Definition calls_ok (o : Recorder.snapshot) : bool :=
  Recorder.start_ok o && Recorder.stop_ok o && Recorder.flush_ok o.

End RecorderLog.

(** ** Reading the sweeper's log *)

Module SweeperLog.

Definition is_send (a : Sweeper.action) : bool :=
  match a with Sweeper.Send _ => true | _ => false end.

Definition is_transcribe (a : Sweeper.action) : bool :=
  match a with Sweeper.Transcribe _ => true | _ => false end.

(** How many actions of the log satisfy [p]. *)
Definition count (p : Sweeper.action → bool) (acts : list Sweeper.action)
    : nat :=
  length (filter (λ a, p a = true) acts).

End SweeperLog.

(** ** The commands: [join] and [leave] *)

Module Session.

(** [self.is_processing] and [self.current_voice_state], the latter by the
    handle of the voice connection. *)
Record bot := Bot {
  is_processing : bool;
  current_voice_state : option string
}.

(** What a command finds and what its collaborators answer.  A command
    sends at most two messages; the two flags say whether the first and the
    second [ctx.send] return. *)
Record world := World {
  author_voice : option string;      (* ctx.author.voice: its channel's name *)
  ctx_voice_state : bool;            (* ctx.voice_state is truthy *)
  connect : Sweeper.outcome string;  (* await ...channel.connect() *)
  start_ok : bool;                   (* await voice_state.start_recording() *)
  stop_ok : bool;                    (* await ....stop_recording() *)
  disconnect_ok : bool;              (* await ....disconnect() *)
  first_send_ok : bool;
  second_send_ok : bool
}.

Inductive action :=
| SetProcessing (b : bool)        (* self.is_processing = b *)
| Sleep (ms : Z)                  (* await asyncio.sleep(...) *)
| Send (content : string)         (* await ctx.send(content) *)
| Connect (channel : string)      (* await ctx.author.voice.channel.connect() *)
| StartRecording (voice_state : string)
| StopRecording (voice_state : string)
| Disconnect (voice_state : string)
| SpawnSweeper                    (* create_task(continuous_processing(ctx)) *)
| SpawnRecorder (voice_state : string)
                                  (* create_task(cycle_recording(voice_state)) *)
| LogError.

Global Instance action_eq_dec : EqDecision action.
Proof. solve_decision. Defined.

(** How a command ends, the bot afterwards, what it did. *)
Record result := Result {
  returned : bool;                (* false: an exception left the command *)
  after : bot;
  log : list action
}.

(** The [except Exception] of [join], entered after the actions [done] with
    the bot [b]; [send_ok] says whether its message gets through. *)
Definition join_failed (send_ok : bool) (b : bot) (done : list action)
    : result :=
  Result send_ok b
    (done ++ [LogError;
              Send "Failed to join voice channel. Please try again."]).

(** [join], lines 129-159. *)
Definition join (w : world) (b : bot) : result :=
  match author_voice w with
  | None =>
      Result (first_send_ok w) b
        [Send "You need to be in a voice channel first!"]
  | Some channel =>
      let restart := [SetProcessing false; Sleep 1000; SetProcessing true] in
      match connect w with
      | Sweeper.Raises =>
          join_failed (first_send_ok w)
            (Bot true (current_voice_state b))
            (restart ++ [Connect channel])
      | Sweeper.Returns voice_state =>
          let b1 := Bot true (Some voice_state) in
          let joined := restart ++ [Connect channel;
                                    Send ("Joined " +:+ channel)] in
          if first_send_ok w then
            if start_ok w then
              Result true b1
                (joined ++ [StartRecording voice_state; SpawnSweeper;
                            SpawnRecorder voice_state])
            else
              join_failed (second_send_ok w) b1
                (joined ++ [StartRecording voice_state])
          else join_failed (second_send_ok w) b1 joined
      end
  end.

(** [leave], lines 207-221; nothing in it catches an exception. *)
Definition leave (w : world) (b : bot) : result :=
  if ctx_voice_state w then
    let stopping := [SetProcessing false; Sleep 1000] in
    match current_voice_state b with
    | Some voice_state =>
        if stop_ok w then
          if disconnect_ok w then
            Result (first_send_ok w) (Bot false None)
              (stopping ++ [StopRecording voice_state;
                            Disconnect voice_state;
                            Send "Left the voice channel"])
          else
            Result false (Bot false (Some voice_state))
              (stopping ++ [StopRecording voice_state;
                            Disconnect voice_state])
        else
          Result false (Bot false (Some voice_state))
            (stopping ++ [StopRecording voice_state])
    | None =>
        Result (first_send_ok w) (Bot false None)
          (stopping ++ [Send "Left the voice channel"])
    end
  else
    Result (first_send_ok w) b [Send "I'm not in a voice channel!"].

End Session.

(** ** [generate_word_patterns] of [src/test.py]

    Here a [str] is the list of its characters. *)

Module Patterns.

(** [text.split()]: the maximal runs of characters that are not white
    space. *)
Fixpoint split_ws (s : list ascii) : list (list ascii) :=
  match s with
  | [] => []
  | c :: s' =>
      if Py.isspace c then split_ws s'
      else match s' with
           | [] => [[c]]
           | c' :: _ =>
               if Py.isspace c' then [c] :: split_ws s'
               else match split_ws s' with
                    | w :: ws => (c :: w) :: ws
                    | [] => [[c]]
                    end
           end
  end.

(** [" " * k] *)
Definition spaces (k : nat) : list ascii := replicate k " "%char.

(** The two [for] loops of the diamond over one word: [range(n)], then
    [range(n-2, -1, -1)]. *)
Definition diamond_line (word : list ascii) (i : nat) : list ascii :=
  let n := length word in
  spaces (n - i - 1) ++ take (i + 1) word.

Definition diamond_word (word : list ascii) : list (list ascii) :=
  let n := length word in
  (diamond_line word <$> seq 0 n)
  ++ (diamond_line word <$> reverse (seq 0 (n - 1))).

(** The [for] loop of the cascade over one word. *)
Definition cascade_word (word : list ascii) : list (list ascii) :=
  (λ i, spaces i ++ drop i word) <$> seq 0 (length word).

(** [l[i]] for a Python integer [i]: negative indices count from the end;
    [None] is the [IndexError]. *)
Definition py_index {A} (l : list A) (i : Z) : option nat :=
  let n := Z.of_nat (length l) in
  if (0 <=? i) && (i <? n) then Some (Z.to_nat i)
  else if (- n <=? i) && (i <? 0) then Some (Z.to_nat (n + i))
  else None.

Definition py_get {A} (l : list A) (i : Z) : option A :=
  k ← py_index l i; l !! k.

(** [l[i] = v] *)
Definition py_set {A} (l : list A) (i : Z) (v : A) : option (list A) :=
  k ← py_index l i; Some (<[k := v]> l).

Definition grid_get (grid : list (list ascii)) (x y : Z) : option ascii :=
  row ← py_get grid x; py_get row y.

(** [grid[x][y] = char] *)
Definition grid_set (grid : list (list ascii)) (x y : Z) (char : ascii)
    : option (list (list ascii)) :=
  row ← py_get grid x;
  row' ← py_set row y char;
  py_set grid x row'.

Definition directions : list (Z * Z) := [(0, 1); (1, 0); (0, -1); (-1, 0)].

(** The variables of the spiral's loop. *)
Record walker := Walker {
  grid : list (list ascii);
  x : Z;
  y : Z;
  d : Z
}.

(** The body of [for char in word] of the spiral; [None] is an
    [IndexError]. *)
Definition spiral_step (size : Z) (char : ascii) (s : walker)
    : option walker :=
  g ← grid_set (grid s) (x s) (y s) char;
  dir ← py_get directions (d s);
  let next_x := x s + dir.1 in
  let next_y := y s + dir.2 in
  blocked ←
    (if (0 <=? next_x) && (next_x <? size)
        && (0 <=? next_y) && (next_y <? size)
     then c ← grid_get g next_x next_y;
          Some (negb (bool_decide (c = " "%char)))
     else Some true);
  if (blocked : bool) then
    let d' := (d s + 1) `mod` 4 in
    dir' ← py_get directions d';
    Some (Walker g (x s + dir'.1) (y s + dir'.2) d')
  else Some (Walker g next_x next_y (d s)).

Fixpoint spiral_walk (size : Z) (chars : list ascii) (s : walker)
    : option walker :=
  match chars with
  | [] => Some s
  | char :: rest => s' ← spiral_step size char s; spiral_walk size rest s'
  end.

(** The spiral over one word: the rows of the grid after the walk. *)
Definition spiral_word (word : list ascii) : option (list (list ascii)) :=
  let size := length word in
  let blank := replicate size (replicate size " "%char) in
  s ← spiral_walk (Z.of_nat size) word (Walker blank 0 0 0);
  Some (grid s).

Inductive result :=
| Ok (lines : list (list ascii))
| ValueError
| IndexError.

(** [generate_word_patterns], lines 140-208. *)
Definition generate_word_patterns (text : list ascii) (pattern_type : string)
    : result :=
  let words := split_ws text in
  if bool_decide (pattern_type = "diamond") then
    Ok (words ≫= diamond_word)
  else if bool_decide (pattern_type = "spiral") then
    match mapM spiral_word words with
    | Some blocks => Ok (concat blocks)
    | None => IndexError
    end
  else if bool_decide (pattern_type = "cascade") then
    Ok (words ≫= cascade_word)
  else ValueError.

End Patterns.


(** ** Proof automation for explicit lists of actions *)

(** An action that differs from every member of an explicit list is not in
    it. *)
Ltac not_listed H :=
  simpl in H;
  repeat (apply elem_of_cons in H as [H|H]; [discriminate|]);
  by apply elem_of_nil in H.

(** An action that an explicit list shows is in it. *)
Ltac listed := simpl; rewrite ?elem_of_cons; auto 10.

(** Counting in an explicit list whose members are or differ from the
    action by their constructors. *)
Ltac count_listed :=
  unfold Sweeper.occurrences;
  repeat (rewrite filter_cons;
          first [rewrite decide_True by done | rewrite decide_False by done]);
  by rewrite ?filter_nil.

(** * Properties of the recording loop *)


Section RecorderFacts.
Import Recorder.

(** The loop on a short run: a cycle is started, its clock is read, and the
    first two ticks of silence keep it going. *)
Example run_three_readings :
  run (Snapshot 0 true false 0 true true true
       :: Scenario.cleared_ticks 0 3) AtHead
  = (Ticking 0 20000,
     [StartRecording; Sleep 100; Sleep 100; Sleep 100]).
Proof. reflexivity. Qed.

(** The body of the inner loop never lowers the target. *)
Lemma tick_continue_mono start d o d' :
  tick start d o = Continue d' → d ≤ d'.
Proof.
  unfold tick. destruct (is_speaking o).
  - intros [= <-]. lia.
  - destruct (_ && _); [discriminate|]. intros [= <-]. lia.
Qed.

(** It breaks exactly on the stop test of line 98. *)
Lemma tick_break_iff start d o :
  tick start d o = Break ↔
  is_speaking o = false
  ∧ SILENCE_HOLD ≤ clock o - last_speech_time o
  ∧ d ≤ clock o - start.
Proof.
  unfold tick. destruct (is_speaking o).
  - split; [discriminate | intros [? _]; discriminate].
  - destruct (Z.leb_spec SILENCE_HOLD (clock o - last_speech_time o));
      destruct (Z.leb_spec d (clock o - start)); simpl;
      split; try discriminate; try (intros (_ & ? & ?); lia); auto.
Qed.

Lemma inner_loop_app start d pre d1 post :
  inner_loop start d pre = Recording d1 →
  inner_loop start d (pre ++ post) = inner_loop start d1 post.
Proof.
  revert d. induction pre as [|o pre IH]; intros d; simpl.
  - by intros [= ->].
  - destruct (tick start d o); [apply IH | discriminate].
Qed.

Lemma inner_loop_mono start obs :
  ∀ d, d ≤ target_duration (inner_loop start d obs).
Proof.
  induction obs as [|o rest IH]; intros d; simpl; [lia|].
  destruct (tick start d o) as [d'|] eqn:Ht; simpl; [|lia].
  apply tick_continue_mono in Ht. specialize (IH d'). lia.
Qed.

Lemma run_app obs1 obs2 s :
  run (obs1 ++ obs2) s =
  let '(s1, a1) := run obs1 s in
  let '(s2, a2) := run obs2 s1 in (s2, a1 ++ a2).
Proof.
  revert s. induction obs1 as [|o obs1 IH]; intros s; simpl.
  - by destruct (run obs2 s).
  - destruct (step o s) as [s1 a1]. rewrite IH.
    destruct (run obs1 s1) as [s2 a2], (run obs2 s2) as [s3 a3].
    by rewrite app_assoc.
Qed.

Lemma run_snoc obs o s :
  (run (obs ++ [o]) s).1 = (step o (run obs s).1).1.
Proof.
  rewrite run_app. destruct (run obs s) as [s1 a1]. simpl.
  by destruct (step o s1).
Qed.

Lemma step_target_ok o s : target_ok s → target_ok (step o s).1.
Proof.
  destruct s as [| |start d|]; simpl; intros Hs.
  - by destruct (is_processing o), (start_ok o).
  - lia.
  - destruct (tick start d o) as [d'|] eqn:Ht; simpl.
    + apply tick_continue_mono in Ht. lia.
    + unfold finish_cycle. by destruct (stop_ok o), (flush_ok o).
  - done.
Qed.

Lemma reachable_target_ok s : reachable s → target_ok s.
Proof.
  intros [obs <-]. induction obs as [|o obs IH] using rev_ind; [done|].
  rewrite run_snoc. by apply step_target_ok.
Qed.

(** [StopRecording] is only issued by the break of a tick. *)
Lemma step_stop_inv o s :
  StopRecording ∈ (step o s).2 →
  ∃ start d, s = Ticking start d ∧ tick start d o = Break.
Proof.
  destruct s as [| |start d|]; simpl.
  - destruct (is_processing o), (start_ok o); intros H; not_listed H.
  - intros H; not_listed H.
  - destruct (tick start d o) eqn:Ht; [intros H; not_listed H | eauto].
  - intros H; not_listed H.
Qed.

Lemma finish_cycle_stops o : StopRecording ∈ (finish_cycle o).2.
Proof.
  unfold finish_cycle. destruct (stop_ok o), (flush_ok o); listed.
Qed.

End RecorderFacts.

Section RecorderTheorems.
Import Recorder.

(** C1. At a tick of a cycle at which [is_speaking] is read true, the target
    becomes [max(target, elapsed + GRACE_SECONDS)], the grace being 2
    seconds, and whatever the cycle reads afterwards its target stays at
    least [(T - start_time) + GRACE_SECONDS], [T] being the clock of that
    tick.  [pre] are the ticks of the cycle before it, which leave the loop
    running with target [d1]; [post] are any later ones. *)
Theorem speaking_tick_extends_target
    (start_time d0 d1 : Z) (pre post : list snapshot) (o : snapshot) :
  inner_loop start_time d0 pre = Recording d1 →
  is_speaking o = true →
  GRACE_SECONDS = 2000
  ∧ tick start_time d1 o
    = Continue (Z.max d1 (clock o - start_time + GRACE_SECONDS))
  ∧ ((clock o - start_time) + GRACE_SECONDS
     ≤ target_duration (inner_loop start_time d0 (pre ++ o :: post))).
Proof.
  intros Hpre Hsp. split; [done|]. split.
  - unfold tick. by rewrite Hsp.
  - rewrite (inner_loop_app _ _ _ _ _ Hpre). simpl.
    unfold tick at 1. rewrite Hsp.
    pose proof (inner_loop_mono start_time post
      (Z.max d1 (clock o - start_time + GRACE_SECONDS))). lia.
Qed.

Lemma speaking_tick_extends_target_witness :
  let o := Snapshot 19000 true true 19000 true true true in
  GRACE_SECONDS = 2000
  ∧ tick 0 20000 o = Continue 21000
  ∧ (21000 ≤ target_duration (inner_loop 0 20000 ([] ++ o :: []))).
Proof.
  exact (speaking_tick_extends_target 0 20000 20000 [] []
           (Snapshot 19000 true true 19000 true true true)
           eq_refl eq_refl).
Defined.

(** The scenario's snapshots do not depend on the tracker's state before the
    first event. *)
Lemma speak_then_pause_ticks tr0 n :
  Scenario.ticks "bot" Scenario.speak_then_pause tr0 0 n
  = Scenario.ticks "bot" Scenario.speak_then_pause (Tracker.Mk false 0) 0 n.
Proof.
  unfold Scenario.ticks, Scenario.tick_times. rewrite <- !list_fmap_compose.
  apply list_fmap_ext. intros _ k _. simpl.
  unfold Scenario.snapshot_at. simpl.
  assert ((0 <=? 0 + RECORDER_TICK * Z.of_nat k) = true) as ->; [|done].
  apply Z.leb_le. unfold RECORDER_TICK. lia.
Qed.

(** C2. The recorder issues [stop_recording] only from a tick of a cycle at
    which it reads not speaking, at least [SILENCE_HOLD] (1.0 s) since the
    last speech and an elapsed time of at least the target, and at such a
    tick it does.  For
    speaking(true)@0s, speaking(false)@3s and a cycle started at 0 that
    ticks every 0.1 s, the cycle breaks at the tick of t = 20 s and at none
    before, with target 20 s. *)
Theorem stop_needs_silence_and_target :
  (∀ o s, StopRecording ∈ (step o s).2 →
     ∃ start_time recording_duration,
       s = Ticking start_time recording_duration
       ∧ is_speaking o = false
       ∧ SILENCE_HOLD ≤ clock o - last_speech_time o
       ∧ recording_duration ≤ clock o - start_time)
  ∧ (∀ o start_time recording_duration,
       is_speaking o = false →
       SILENCE_HOLD ≤ clock o - last_speech_time o →
       recording_duration ≤ clock o - start_time →
       StopRecording ∈ (step o (Ticking start_time recording_duration)).2)
  ∧ SILENCE_HOLD = 1000
  ∧ Z.max 20000 (3000 + GRACE_SECONDS) = 20000
  ∧ (∀ tr0,
       inner_loop 0 BASE_DURATION
         (Scenario.ticks "bot" Scenario.speak_then_pause tr0 0 201)
       = Stopped 20000 20000 [])
  ∧ (∀ tr0 (n : nat), (n ≤ 200)%nat →
       inner_loop 0 BASE_DURATION
         (Scenario.ticks "bot" Scenario.speak_then_pause tr0 0 n)
       = Recording 20000).
Proof.
  split; [|split; [|split; [done|split; [done|split]]]].
  - intros o s (start & d & -> & Hb)%step_stop_inv.
    apply tick_break_iff in Hb. eauto.
  - intros o start d Hsp Hhold Hel. simpl.
    assert (tick start d o = Break) as -> by (by apply tick_break_iff).
    apply finish_cycle_stops.
  - intros tr0. rewrite speak_then_pause_ticks. by vm_compute.
  - intros tr0 n Hn. rewrite speak_then_pause_ticks.
    assert (forallb (λ n : nat,
              bool_decide (inner_loop 0 BASE_DURATION
                (Scenario.ticks "bot" Scenario.speak_then_pause
                   (Tracker.Mk false 0) 0 n) = Recording 20000))
              (seq 0 201) = true) as Hall by (by vm_compute).
    rewrite forallb_forall in Hall.
    specialize (Hall n). rewrite bool_decide_eq_true in Hall.
    apply Hall, in_seq. lia.
Qed.

Lemma stop_needs_silence_and_target_witness :
  ∃ start_time recording_duration,
    Ticking 0 20000 = Ticking start_time recording_duration
    ∧ false = false
    ∧ SILENCE_HOLD ≤ 20000 - 0
    ∧ recording_duration ≤ 20000 - start_time.
Proof.
  exact (proj1 stop_needs_silence_and_target
           (Snapshot 20000 true false 0 true true true) (Ticking 0 20000)
           ltac:(vm_compute; apply list_elem_of_here)).
Defined.

(** C3. Whatever the loop has read, a cycle in progress has a target of at
    least [BASE_DURATION] (20 s): the target starts there, a tick never
    lowers it, and [stop_recording] is issued only at an elapsed time of at
    least [BASE_DURATION]. *)
Theorem never_stops_before_base_duration :
  BASE_DURATION = 20000
  ∧ (∀ o, (step o Starting).1 = Ticking (clock o) BASE_DURATION)
  ∧ (∀ start_time d o d', tick start_time d o = Continue d' → d ≤ d')
  ∧ (∀ obs start_time d,
       (run obs AtHead).1 = Ticking start_time d → BASE_DURATION ≤ d)
  ∧ (∀ obs o start_time d,
       (run obs AtHead).1 = Ticking start_time d →
       StopRecording ∈ (step o (Ticking start_time d)).2 →
       BASE_DURATION ≤ clock o - start_time).
Proof.
  split; [done|]. split; [done|]. split; [apply tick_continue_mono|].
  assert (∀ obs start_time d,
    (run obs AtHead).1 = Ticking start_time d → BASE_DURATION ≤ d) as Hinv.
  { intros obs start d Hrun.
    assert (reachable (Ticking start d)) as Hr by (by exists obs).
    by apply reachable_target_ok in Hr. }
  split; [exact Hinv|].
  intros obs o start d Hrun (start' & d' & [= <- <-] & Hb)%step_stop_inv.
  apply tick_break_iff in Hb as (_ & _ & Hel).
  specialize (Hinv _ _ _ Hrun). lia.
Qed.

Lemma never_stops_before_base_duration_witness :
  BASE_DURATION ≤ 20000 - 0.
Proof.
  exact (proj2 (proj2 (proj2 (proj2 never_stops_before_base_duration)))
           [Snapshot 0 true false 0 true true true;
            Snapshot 0 true false 0 true true true]
           (Snapshot 20000 true false 0 true true true) 0 20000
           eq_refl ltac:(vm_compute; apply list_elem_of_here)).
Defined.

End RecorderTheorems.

(** * Properties of the name lookup and of the sweep *)

Section StringFacts.

Example strip_example : Py.strip "  hi there  " = "hi there".
Proof. reflexivity. Qed.

Example split_example : Py.split "_" "a__b" = ["a"; ""; "b"].
Proof. reflexivity. Qed.

Example stem_examples :
  Py.stem "1_42.wav" = "1_42" ∧ Py.stem "a.b.wav" = "a.b"
  ∧ Py.stem ".wav" = ".wav".
Proof. by repeat split. Qed.

Example is_wav_examples :
  Py.is_wav "1_42.wav" = true ∧ Py.is_wav "notes.txt" = false.
Proof. by split. Qed.

Lemma truthy_true s : Py.truthy s = true ↔ s ≠ "".
Proof.
  unfold Py.truthy. rewrite negb_true_iff, bool_decide_eq_false. done.
Qed.

Lemma lstrip_whitespace_only s :
  Py.whitespace_only s = true → Py.lstrip s = "".
Proof.
  induction s as [|c s IH]; simpl; [done|].
  intros [-> Hs]%andb_true_iff. auto.
Qed.

Lemma strip_whitespace_only s :
  Py.whitespace_only s = true → Py.strip s = "".
Proof.
  intros Hs. unfold Py.strip. by rewrite (lstrip_whitespace_only _ Hs).
Qed.

Lemma string_cons_app c a b : String c a +:+ b = String c (a +:+ b).
Proof. done. Qed.

Lemma split_nonempty sep s : Py.split sep s ≠ [].
Proof.
  destruct s as [|c s]; simpl; [done|].
  destruct (bool_decide (c = sep)); [done|]. by destruct (Py.split sep s).
Qed.

(** A string without the separator is its own single token. *)
Lemma split_no_sep sep a : Py.contains sep a = false → Py.split sep a = [a].
Proof.
  induction a as [|c a IH]; simpl; [done|].
  destruct (bool_decide (c = sep)); [done|]. intros Ha. by rewrite IH.
Qed.

(** The first token ends at the first separator. *)
Lemma split_first sep a r :
  Py.contains sep a = false →
  Py.split sep (a +:+ String sep r) = a :: Py.split sep r.
Proof.
  induction a as [|c a IH]; simpl.
  - intros _. change ("" +:+ String sep r) with (String sep r). simpl.
    by rewrite bool_decide_eq_true_2.
  - destruct (bool_decide (c = sep)) eqn:Hc; [done|]. intros Ha.
    by rewrite IH.
Qed.

Lemma contains_app_sep sep a r : Py.contains sep (a +:+ String sep r) = true.
Proof.
  induction a as [|c a IH].
  - change ("" +:+ String sep r) with (String sep r). simpl.
    by rewrite bool_decide_eq_true_2.
  - rewrite string_cons_app. simpl. by destruct (bool_decide (c = sep)).
Qed.

End StringFacts.

Section UserIdFacts.
Import Sweeper.

(** A stem that contains the separator splits at its first occurrence. *)
Lemma contains_split sep s :
  Py.contains sep s = true →
  ∃ a r, s = a +:+ String sep r ∧ Py.contains sep a = false.
Proof.
  induction s as [|c s IH]; simpl; [done|].
  destruct (bool_decide (c = sep)) eqn:Hc.
  - intros _. apply bool_decide_eq_true in Hc as ->. by exists "", s.
  - intros (a & r & -> & Ha)%IH. exists (String c a), r. simpl.
    by rewrite Hc.
Qed.

(** The subscript [[1]] of line 190 is always in range. *)
Lemma user_id_of_total stem : ∃ user_id, user_id_of stem = Some user_id.
Proof.
  unfold user_id_of. destruct (Py.contains "_" stem) eqn:Hc; [|eauto].
  apply contains_split in Hc as (a & r & -> & Ha).
  rewrite (split_first _ _ _ Ha).
  pose proof (split_nonempty "_" r). destruct (Py.split "_" r); [done|].
  simpl. eauto.
Qed.

End UserIdFacts.

Section SweeperFacts.
Import Sweeper.

Lemma occurrences_app a l1 l2 :
  occurrences a (l1 ++ l2) = (occurrences a l1 + occurrences a l2)%nat.
Proof. unfold occurrences. by rewrite filter_app, length_app. Qed.

Lemma occurrences_absent a l : a ∉ l → occurrences a l = 0%nat.
Proof.
  unfold occurrences. induction l as [|x l IH]; [done|].
  intros [Hx Hl]%not_elem_of_cons. rewrite filter_cons.
  destruct (decide (x = a)); [congruence | by apply IH].
Qed.

(** [get_username] neither reads nor deletes files, and everything it calls
    is a fetch or the logger. *)
Lemma get_username_actions w user_id guild_id cache a :
  a ∈ (get_username w user_id guild_id cache).2 →
  a = FetchGuild guild_id ∨ a = FetchMember user_id ∨ a = LogError.
Proof.
  unfold get_username. destruct (cache !! _); simpl.
  - by intros ?%elem_of_nil.
  - destruct (fetch_guild_ok w); [destruct (fetch_member w)|]; simpl;
      rewrite ?elem_of_cons, elem_of_nil; tauto.
Qed.

(** How the per-file handler ends. *)
Lemma handler_end w name fs cache done :
  ∃ fs' tail raised,
    handler (first_unlink_ok w) name fs cache done
    = (Store fs' cache, done ++ tail, raised)
    ∧ cleans_up w name fs fs' tail raised.
Proof.
  unfold handler, unlink_if_exists, cleans_up.
  destruct (fs !! name) as [f|] eqn:Hf; [destruct (first_unlink_ok w)|].
  - exists (delete name fs), [LogError; Unlink name], false.
    split; [done|]. split; [by right|]. split; [by repeat constructor|].
    intros _ _ _ _. split; [done|]. split; [done|]. count_listed.
  - exists fs, [LogError; Unlink name], true.
    split; [done|]. split; [by left|]. split; [by repeat constructor|done].
  - exists fs, [LogError], false.
    split; [done|]. split; [by left|]. split; [by repeat constructor|].
    intros _ f' Hf'. congruence.
Qed.

(** How lines 195-196 end, with the handler behind them. *)
Lemma finish_end w name fs cache done :
  ∃ fs' tail raised,
    finish w name fs cache done = (Store fs' cache, done ++ tail, raised)
    ∧ cleans_up w name fs fs' tail raised.
Proof.
  unfold finish, handler, unlink_if_exists, cleans_up.
  destruct (fs !! name) as [f|] eqn:Hf; [destruct (first_unlink_ok w)|].
  - exists (delete name fs), [Unlink name], false.
    split; [done|]. split; [by right|]. split; [by repeat constructor|].
    intros _ _ _ _. split; [done|]. split; [done|]. count_listed.
  - rewrite Hf. destruct (second_unlink_ok w).
    + exists (delete name fs), [Unlink name; LogError; Unlink name], false.
      split; [by rewrite <- app_assoc|]. split; [by right|].
      split; [by repeat constructor|done].
    + exists fs, [Unlink name; LogError; Unlink name], true.
      split; [by rewrite <- app_assoc|]. split; [by left|].
      split; [by repeat constructor|done].
  - exists fs, [], false.
    split; [done|]. split; [by left|]. split; [constructor|].
    intros _ f' Hf'. congruence.
Qed.

(** Every way through the body of the [for] loop: what was done before
    lines 195-200, and how these end. *)
Lemma handle_file_shape guild_id w name st :
  let fs := staging st in
  let cache := user_cache st in
  ∃ fs' tail raised,
    cleans_up w name fs fs' tail raised
    ∧ ((handle_file guild_id w name st = (Store fs' cache, tail, raised)
        ∧ (fs !! name = None
           ∨ ∃ f, fs !! name = Some f
                  ∧ (settled w f = false ∨ st_size f ≤ MIN_BYTES)))
       ∨ ∃ f, fs !! name = Some f ∧ settled w f = true
              ∧ MIN_BYTES < st_size f
              ∧ ((handle_file guild_id w name st
                  = (Store fs' cache, [Transcribe name] ++ tail, raised)
                  ∧ (transcribe w = Raises
                     ∨ ∃ text, transcribe w = Returns text
                               ∧ Py.strip text = ""))
                 ∨ ∃ text user_id,
                     transcribe w = Returns text
                     ∧ Py.strip text ≠ ""
                     ∧ user_id_of (Py.stem name) = Some user_id
                     ∧ let g := get_username w user_id guild_id cache in
                       handle_file guild_id w name st
                       = (Store fs' g.1.2,
                          ([Transcribe name] ++ g.2
                           ++ [Send (g.1.1 +:+ ": " +:+ Py.strip text)])
                          ++ tail, raised))).
Proof.
  intros fs cache. subst fs cache. destruct st as [fs cache]. simpl.
  unfold handle_file. simpl.
  destruct (fs !! name) as [f|] eqn:Hf.
  2:{ destruct (handler_end w name fs cache []) as (fs' & tail & r & He & Hc).
      exists fs', tail, r. split; [done|]. left. split; [done | by left]. }
  destruct (settled w f) eqn:Hs.
  2:{ exists fs, [], false. split.
      - split; [by left|]. split; [constructor|]. intros _ f' Hf' Hs'.
        congruence.
      - left. split; [done|]. right. exists f. auto. }
  destruct (Z.ltb_spec MIN_BYTES (st_size f)) as [Hsz|Hsz].
  2:{ destruct (finish_end w name fs cache []) as (fs' & tail & r & He & Hc).
      exists fs', tail, r. split; [done|]. left. split; [done|].
      right. exists f. auto. }
  destruct (transcribe w) as [text|].
  2:{ destruct (handler_end w name fs cache [Transcribe name])
        as (fs' & tail & r & He & Hc).
      exists fs', tail, r. split; [done|]. right. exists f.
      split; [done|]. split; [done|]. split; [done|]. left. auto. }
  destruct (Py.truthy (Py.strip text)) eqn:Htr.
  2:{ destruct (finish_end w name fs cache [Transcribe name])
        as (fs' & tail & r & He & Hc).
      exists fs', tail, r. split; [done|]. right. exists f.
      split; [done|]. split; [done|]. split; [done|]. left.
      split; [done|]. right. exists text. split; [done|].
      unfold Py.truthy in Htr.
      by apply negb_false_iff, bool_decide_eq_true in Htr. }
  apply truthy_true in Htr.
  destruct (user_id_of_total (Py.stem name)) as [uid Hu]. rewrite Hu.
  destruct (get_username w uid guild_id cache) as [[uname cache'] looked]
    eqn:Hg.
  assert (∃ fs' tail r,
    (if send_ok w
     then finish w name fs cache'
            ([Transcribe name] ++ looked
             ++ [Send (uname +:+ ": " +:+ Py.strip text)])
     else handler (first_unlink_ok w) name fs cache'
            ([Transcribe name] ++ looked
             ++ [Send (uname +:+ ": " +:+ Py.strip text)]))
    = (Store fs' cache',
       ([Transcribe name] ++ looked
        ++ [Send (uname +:+ ": " +:+ Py.strip text)]) ++ tail, r)
    ∧ cleans_up w name fs fs' tail r) as (fs' & tail & r & He & Hc).
  { destruct (send_ok w); [apply finish_end | apply handler_end]. }
  exists fs', tail, r. split; [done|]. right. exists f.
  split; [done|]. split; [done|]. split; [done|]. right.
  exists text, uid. split; [done|]. split; [done|]. split; [done|].
  by rewrite Hg.
Qed.

Lemma process_file_eq guild_id w name st st1 a1 raised :
  handle_file guild_id w name st = (st1, a1, raised) →
  process_file guild_id w name st = (st1, a1).
Proof. unfold process_file. by intros ->. Qed.

(** A file that has not settled, or is seen while someone speaks, is passed
    over. *)
Lemma handle_file_unsettled guild_id w name st f :
  staging st !! name = Some f → settled w f = false →
  handle_file guild_id w name st = (st, [], false).
Proof. unfold handle_file. by intros -> ->. Qed.

Lemma process_file_unsettled guild_id w name st f :
  staging st !! name = Some f → settled w f = false →
  process_file guild_id w name st = (st, []).
Proof.
  intros Hf Hs. unfold process_file.
  by rewrite (handle_file_unsettled _ _ _ _ _ Hf Hs).
Qed.

(** The store and the log of every way through the body. *)
Lemma process_file_shape guild_id w name st :
  ∃ fs' cache' said tail raised,
    handle_file guild_id w name st
    = (Store fs' cache', said ++ tail, raised)
    ∧ cleans_up w name (staging st) fs' tail raised
    ∧ (said = [] ∨ said = [Transcribe name]
       ∨ ∃ user_id content,
           said = [Transcribe name]
                  ++ (get_username w user_id guild_id (user_cache st)).2
                  ++ [Send content]).
Proof.
  destruct (handle_file_shape guild_id w name st)
    as (fs' & tail & r & Hc & [[He _]|(f & _ & _ & _ &
         [[He _]|(text & uid & _ & _ & _ & He)])]).
  - exists fs', (user_cache st), [], tail, r. auto.
  - exists fs', (user_cache st), [Transcribe name], tail, r. auto.
  - cbv zeta in He. eexists fs', _, _, tail, r.
    split; [exact He|]. split; [done|]. right. right. eauto.
Qed.

(** Handling a file leaves every other file alone. *)
Lemma process_file_other guild_id w name st name' :
  name' ≠ name →
  staging (process_file guild_id w name st).1 !! name' = staging st !! name'.
Proof.
  intros Hne. unfold process_file.
  destruct (process_file_shape guild_id w name st)
    as (fs' & cache' & said & tail & r & -> & ([-> | ->] & _) & _); simpl;
    [done | by rewrite lookup_delete_ne].
Qed.

(** Handling a file transcribes and unlinks that file only. *)
Lemma process_file_paths guild_id w name st a :
  a ∈ (process_file guild_id w name st).2 →
  (∀ p, a = Transcribe p → p = name) ∧ (∀ p, a = Unlink p → p = name).
Proof.
  unfold process_file.
  destruct (process_file_shape guild_id w name st)
    as (fs' & cache' & said & tail & r & -> & (_ & Htail & _) & Hsaid).
  simpl. rewrite elem_of_app. rewrite Forall_forall in Htail.
  intros [Ha|Ha].
  - destruct Hsaid as [->|[->|(uid & content & ->)]].
    + by apply elem_of_nil in Ha.
    + apply list_elem_of_singleton in Ha as ->. split; congruence.
    + rewrite !elem_of_app, !list_elem_of_singleton in Ha.
      destruct Ha as [->|[Ha| ->]]; [split; congruence| |split; congruence].
      apply get_username_actions in Ha as [->|[->| ->]]; split; congruence.
  - destruct (Htail _ Ha) as [-> | ->]; split; congruence.
Qed.

(** A settled file whose first [unlink()] returns is gone after it was
    handled, unlinked once, and nothing leaves the body, whatever the
    model, the lookup and the channel do. *)
Lemma handle_file_settled guild_id w name st f :
  staging st !! name = Some f → first_unlink_ok w = true →
  settled w f = true →
  staging (handle_file guild_id w name st).1.1 !! name = None
  ∧ occurrences (Unlink name) (handle_file guild_id w name st).1.2 = 1%nat
  ∧ (handle_file guild_id w name st).2 = false.
Proof.
  intros Hf Hok Hs.
  destruct (process_file_shape guild_id w name st)
    as (fs' & cache' & said & tail & r & -> & (_ & _ & Hgone) & Hsaid).
  destruct (Hgone Hok f Hf Hs) as (-> & -> & Hone). simpl.
  split; [apply lookup_delete_eq|]. split; [|done].
  rewrite occurrences_app, Hone.
  assert (occurrences (Unlink name) said = 0%nat) as ->; [|done].
  apply occurrences_absent. intros Hin.
  destruct Hsaid as [->|[->|(uid & content & ->)]].
  - by apply elem_of_nil in Hin.
  - by apply list_elem_of_singleton in Hin.
  - rewrite !elem_of_app, !list_elem_of_singleton in Hin.
    destruct Hin as [?|[Hin|?]]; [done| |done].
    apply get_username_actions in Hin as [|[|]]; done.
Qed.

End SweeperFacts.


Section SweepFacts.
Import Sweeper.

(** A settled file of 4 KiB whose transcript is " hello ": the model is
    called, the name is fetched, the message is sent, the file is gone. *)
Example process_file_example :
  process_file "9"
    (World 2000 false (Returns " hello ") true
       (Returns (Member (Some "") "bob")) true true true)
    "1_42.wav" (Store {[ "1_42.wav" := File 0 4096 ]} ∅)
  = (Store ∅ {[ "42_9" := "bob" ]},
     [Transcribe "1_42.wav"; FetchGuild "9"; FetchMember "42";
      Send "bob: hello"; Unlink "1_42.wav"]).
Proof. by vm_compute. Qed.

Example glob_wav_example :
  glob_wav {[ "b.wav" := File 0 1; "a.txt" := File 0 1;
              "a.wav" := File 0 1 ]} = ["a.wav"; "b.wav"].
Proof. by vm_compute. Qed.

Lemma settled_false w f :
  settled w f = false ↔
  now w - st_mtime f ≤ SETTLE_THRESHOLD ∨ is_speaking w = true.
Proof.
  unfold settled. rewrite andb_false_iff, Z.ltb_ge, negb_false_iff. done.
Qed.

Lemma settled_true w f :
  settled w f = true ↔
  SETTLE_THRESHOLD < now w - st_mtime f ∧ is_speaking w = false.
Proof.
  unfold settled. rewrite andb_true_iff, Z.ltb_lt, negb_true_iff. done.
Qed.

(** One file of a sweep: either the body of the loop raises, the error is
    logged and the sweep is over, or the sweep goes on with the other
    files. *)
Lemma sweep_cons guild_id worlds x files st :
  let p := process_file guild_id (worlds x) x st in
  ((handle_file guild_id (worlds x) x st).2 = true
   ∧ sweep guild_id worlds (x :: files) st = (p.1, p.2 ++ [LogError]))
  ∨ ((handle_file guild_id (worlds x) x st).2 = false
     ∧ sweep guild_id worlds (x :: files) st
       = ((sweep guild_id worlds files p.1).1,
          p.2 ++ (sweep guild_id worlds files p.1).2)).
Proof.
  unfold process_file. simpl.
  destruct (handle_file guild_id (worlds x) x st) as [[st1 a1] [|]]; simpl.
  - by left.
  - right. split; [done|]. by destruct (sweep guild_id worlds files st1).
Qed.

(** A sweep leaves the files it was not given alone. *)
Lemma sweep_other guild_id worlds files name :
  name ∉ files → ∀ st,
  staging (sweep guild_id worlds files st).1 !! name = staging st !! name.
Proof.
  induction files as [|x files IH]; [done|].
  intros [Hx Hfiles]%not_elem_of_cons st.
  destruct (sweep_cons guild_id worlds x files st) as [[_ ->]|[_ ->]];
    cbn [fst snd].
  - by apply process_file_other.
  - rewrite (IH Hfiles). by apply process_file_other.
Qed.

(** A sweep transcribes and unlinks only files it was given. *)
Lemma sweep_paths guild_id worlds files a :
  ∀ st, a ∈ (sweep guild_id worlds files st).2 →
  (∀ p, a = Transcribe p → p ∈ files) ∧ (∀ p, a = Unlink p → p ∈ files).
Proof.
  induction files as [|x files IH]; intros st.
  - by intros ?%elem_of_nil.
  - pose proof (process_file_paths guild_id (worlds x) x st a) as Hpp.
    destruct (sweep_cons guild_id worlds x files st) as [[_ ->]|[_ ->]];
      cbn [fst snd]; intros [Ha|Ha]%elem_of_app.
    + destruct (Hpp Ha) as [Ht Hu].
      split; intros p ->; [rewrite (Ht p) | rewrite (Hu p)];
        done || apply list_elem_of_here.
    + apply list_elem_of_singleton in Ha as ->. split; congruence.
    + destruct (Hpp Ha) as [Ht Hu].
      split; intros p ->; [rewrite (Ht p) | rewrite (Hu p)];
        done || apply list_elem_of_here.
    + destruct (IH _ Ha) as [Ht Hu].
      split; intros p Hpa; apply list_elem_of_further; auto.
Qed.

End SweepFacts.


Section SweeperTheorems.
Import Sweeper.

(** C5. In a sweep, a file whose age is at most the settle threshold of
    0.75 s (so every age below it), or that is reached while
    [is_speaking] is set, is neither given to the model nor unlinked, and
    is still in the directory, unchanged, after the sweep. *)
Theorem unsettled_file_left_untouched
    guild_id worlds files st name f :
  staging st !! name = Some f →
  now (worlds name) - st_mtime f ≤ SETTLE_THRESHOLD
    ∨ is_speaking (worlds name) = true →
  SETTLE_THRESHOLD = 750
  ∧ (Transcribe name ∉ (sweep guild_id worlds files st).2)
  ∧ (Unlink name ∉ (sweep guild_id worlds files st).2)
  ∧ staging (sweep guild_id worlds files st).1 !! name = Some f.
Proof.
  intros Hf Hun%settled_false. split; [done|].
  revert st Hf. induction files as [|x files IH]; intros st Hf.
  - split; [by intros ?%elem_of_nil|]. split; [by intros ?%elem_of_nil|done].
  - pose proof (sweep_cons guild_id worlds x files st) as Hcons.
    cbv zeta in Hcons.
    destruct (process_file guild_id (worlds x) x st) as [st1 a1] eqn:Hp.
    assert (staging st1 !! name = Some f
            ∧ (Transcribe name ∉ a1) ∧ (Unlink name ∉ a1))
      as (Hf1 & Ht1 & Hu1).
    { destruct (decide (x = name)) as [->|Hne].
      - rewrite (process_file_unsettled _ _ _ _ _ Hf Hun) in Hp.
        injection Hp as <- <-.
        split; [done|]. split; by intros ?%elem_of_nil.
      - pose proof (process_file_other guild_id (worlds x) x st name
                      (not_eq_sym Hne)) as Ho.
        rewrite Hp in Ho. simpl in Ho. rewrite Ho. split; [done|].
        pose proof (process_file_paths guild_id (worlds x) x st) as Hpp.
        rewrite Hp in Hpp. simpl in Hpp.
        split; intros Hin; destruct (Hpp _ Hin) as [Ht Hu];
          [apply Hne; symmetry; by apply Ht
          | apply Hne; symmetry; by apply Hu]. }
    destruct Hcons as [[_ ->]|[_ ->]]; cbn [fst snd].
    + rewrite !elem_of_app, !list_elem_of_singleton.
      split; [|split; [|done]]; intros [?|?]; done.
    + destruct (IH st1 Hf1) as (Ht2 & Hu2 & Hf2).
      rewrite !elem_of_app. tauto.
Qed.

Lemma unsettled_file_left_untouched_witness :
  let st := Store {[ "1_42.wav" := File 1500 4096 ]} ∅ in
  let worlds := λ _ : string,
    World 2000 false (Returns "hello") true Raises true true true in
  SETTLE_THRESHOLD = 750
  ∧ (Transcribe "1_42.wav" ∉ (sweep "9" worlds ["1_42.wav"] st).2)
  ∧ (Unlink "1_42.wav" ∉ (sweep "9" worlds ["1_42.wav"] st).2)
  ∧ staging (sweep "9" worlds ["1_42.wav"] st).1 !! "1_42.wav"
    = Some (File 1500 4096).
Proof.
  intros st worlds.
  apply (unsettled_file_left_untouched "9" worlds ["1_42.wav"] st
           "1_42.wav" (File 1500 4096)).
  - by vm_compute.
  - left. by vm_compute.
Defined.

(** The files listed for a sweep are distinct, and they are the [.wav]
    files of the directory. *)
Lemma glob_wav_NoDup fs : NoDup (glob_wav fs).
Proof. apply NoDup_filter, NoDup_fst_map_to_list. Qed.

Lemma elem_of_glob_wav fs name :
  name ∈ glob_wav fs ↔ Py.is_wav name = true ∧ is_Some (fs !! name).
Proof.
  unfold glob_wav. rewrite list_elem_of_filter, list_elem_of_fmap.
  split; intros [Hw Hin]; (split; [done|]).
  - destruct Hin as ([k f] & -> & Hkf%elem_of_map_to_list). by exists f.
  - destruct Hin as [f Hf]. exists (name, f). split; [done|].
    by apply elem_of_map_to_list.
Qed.

(** Where the first [unlink()] returns, nothing leaves the body of the
    loop. *)
Lemma handle_file_no_raise guild_id w name st :
  first_unlink_ok w = true → (handle_file guild_id w name st).2 = false.
Proof.
  intros Hok. unfold handle_file, finish, handler, unlink_if_exists.
  rewrite Hok. repeat case_match; simplify_eq/=; done.
Qed.

(** Over distinct names whose [unlink()] returns, a settled file is
    unlinked once by the sweep and is gone after it. *)
Lemma sweep_deletes_settled_once guild_id worlds files name f :
  settled (worlds name) f = true →
  (∀ x, x ∈ files → first_unlink_ok (worlds x) = true) →
  ∀ st, staging st !! name = Some f → NoDup files → name ∈ files →
  staging (sweep guild_id worlds files st).1 !! name = None
  ∧ occurrences (Unlink name) (sweep guild_id worlds files st).2 = 1%nat.
Proof.
  intros Hs. induction files as [|x files IH]; intros Hok st Hf Hnd Hin;
    [by apply elem_of_nil in Hin|].
  apply NoDup_cons in Hnd as [Hx Hnd].
  assert (first_unlink_ok (worlds x) = true) as Hokx
    by apply Hok, list_elem_of_here.
  assert (∀ y, y ∈ files → first_unlink_ok (worlds y) = true) as Hok'
    by (intros y Hy; by apply Hok, list_elem_of_further).
  destruct (sweep_cons guild_id worlds x files st) as [[Hr _]|[_ ->]].
  { by rewrite handle_file_no_raise in Hr. }
  cbn [fst snd]. unfold process_file.
  destruct (decide (x = name)) as [->|Hne].
  - destruct (handle_file_settled guild_id _ _ _ _ Hf Hokx Hs)
      as (Hgone & Hone & _).
    destruct (handle_file guild_id (worlds name) name st) as [[st1 a1] r].
    simpl in *.
    pose proof (sweep_other guild_id worlds files name Hx st1) as Hkeep.
    pose proof (sweep_paths guild_id worlds files (Unlink name) st1) as Hpa.
    split; [by rewrite Hkeep|].
    rewrite occurrences_app, Hone, occurrences_absent; [done|].
    intros Hin2. destruct (Hpa Hin2) as [_ Hu]. by apply Hx, Hu.
  - apply elem_of_cons in Hin as [->|Hin]; [done|].
    pose proof (process_file_other guild_id (worlds x) x st name
                  (not_eq_sym Hne)) as Ho.
    pose proof (process_file_paths guild_id (worlds x) x st
                  (Unlink name)) as Hpp.
    unfold process_file in Ho, Hpp.
    destruct (handle_file guild_id (worlds x) x st) as [[st1 a1] r].
    simpl in *.
    assert (staging st1 !! name = Some f) as Hf1 by (by rewrite Ho).
    destruct (IH Hok' st1 Hf1 Hnd Hin) as [Hgone Hone].
    split; [done|].
    rewrite occurrences_app, Hone, occurrences_absent; [done|].
    intros Hin1. destruct (Hpp Hin1) as [_ Hu]. apply Hne. symmetry.
    by apply Hu.
Qed.

(** A round of the loop on a set flag in which no [unlink()] raises: every
    [.wav] file of the directory that is found settled is unlinked once in
    the round and is gone at its end. *)
Lemma round_deletes_settled_once guild_id o st name f :
  Sweeper.is_processing o = true →
  (∀ x, first_unlink_ok (Sweeper.worlds o x) = true) →
  Py.is_wav name = true →
  (written o ∪ staging st) !! name = Some f →
  settled (Sweeper.worlds o name) f = true →
  staging (Sweeper.step guild_id o (Sweeper.AtHead, st)).1.2 !! name = None
  ∧ occurrences (Unlink name)
      (Sweeper.step guild_id o (Sweeper.AtHead, st)).2 = 1%nat.
Proof.
  intros Ho Hok Hw Hf Hs. unfold Sweeper.step. rewrite Ho. cbv zeta.
  pose (st0 := Store (written o ∪ staging st) (user_cache st)).
  destruct (sweep_deletes_settled_once guild_id (Sweeper.worlds o)
              (glob_wav (staging st0)) name f Hs (λ x _, Hok x) st0 Hf
              (glob_wav_NoDup _)) as [Hgone Hone].
  { apply elem_of_glob_wav. split; [done|]. by exists f. }
  subst st0.
  destruct (sweep guild_id (Sweeper.worlds o) _ _) as [st' acts].
  simpl in *. split; [done|].
  rewrite occurrences_app, Hone.
  assert (occurrences (Unlink name) [Sweeper.Sleep SWEEPER_TICK] = 0%nat)
    as -> by count_listed.
  done.
Qed.

(** C6, as the code has it.  In a sweep over distinct file names, as the
    directory listing gives them, in which no [unlink()] raises, every file
    found settled (older than the threshold, nobody speaking) is unlinked
    exactly once and is gone afterwards, whatever the model, the lookup and
    the channel do for this or any other file of the sweep; when the model
    raises on it, the error is logged and the file unlinked all the
    same. *)
Theorem settled_file_deleted_exactly_once
    guild_id worlds files st name f :
  NoDup files → name ∈ files →
  staging st !! name = Some f →
  SETTLE_THRESHOLD < now (worlds name) - st_mtime f →
  is_speaking (worlds name) = false →
  (∀ x, x ∈ files → first_unlink_ok (worlds x) = true) →
  staging (sweep guild_id worlds files st).1 !! name = None
  ∧ occurrences (Unlink name) (sweep guild_id worlds files st).2 = 1%nat
  ∧ (∀ st0, staging st0 !! name = Some f →
       transcribe (worlds name) = Raises → MIN_BYTES < st_size f →
       process_file guild_id (worlds name) name st0
       = (Store (delete name (staging st0)) (user_cache st0),
          [Transcribe name; LogError; Unlink name])).
Proof.
  intros Hnd Hin Hf Hage Hsp Hok.
  assert (settled (worlds name) f = true) as Hs by (by apply settled_true).
  destruct (sweep_deletes_settled_once guild_id worlds files name f Hs Hok
              st Hf Hnd Hin) as [Hgone Hone].
  split; [done|]. split; [done|].
  intros st0 Hf0 Hraise Hsz.
  unfold process_file, handle_file, handler, unlink_if_exists.
  rewrite Hf0, Hs, Hraise, (Hok _ Hin).
  by assert ((MIN_BYTES <? st_size f) = true) as -> by (by apply Z.ltb_lt).
Qed.

Lemma settled_file_deleted_exactly_once_witness :
  let st := Store {[ "1_42.wav" := File 0 4096 ]} ∅ in
  let worlds := λ _ : string,
    World 2000 false Raises true Raises true true true in
  staging (sweep "9" worlds ["1_42.wav"] st).1 !! "1_42.wav" = None
  ∧ occurrences (Unlink "1_42.wav") (sweep "9" worlds ["1_42.wav"] st).2
    = 1%nat
  ∧ (∀ st0, staging st0 !! "1_42.wav" = Some (File 0 4096) →
       transcribe (worlds "1_42.wav") = Raises →
       MIN_BYTES < st_size (File 0 4096) →
       process_file "9" (worlds "1_42.wav") "1_42.wav" st0
       = (Store (delete "1_42.wav" (staging st0)) (user_cache st0),
          [Transcribe "1_42.wav"; LogError; Unlink "1_42.wav"])).
Proof.
  intros st worlds.
  apply (settled_file_deleted_exactly_once "9" worlds ["1_42.wav"] st
           "1_42.wav" (File 0 4096)).
  - apply NoDup_singleton.
  - apply list_elem_of_here.
  - by vm_compute.
  - by vm_compute.
  - reflexivity.
  - by intros x _.
Defined.

(** C6 fails as stated when [unlink()] raises.  Two settled files of 500
    bytes, nobody speaking, and an [unlink()] that raises: the round tries
    to unlink the first file, logs the error, tries again in the handler,
    and that exception leaves the [for] loop.  The first file was tried
    twice and is still there; the second, as eligible as the first, was
    never reached and is still there. *)
Lemma failing_unlink_leaves_settled_files :
  let st := Store {[ "1_42.wav" := File 0 500;
                     "2_43.wav" := File 0 500 ]} ∅ in
  let worlds := λ _ : string,
    World 2000 false (Returns "hello") true Raises true false false in
  let o := Sweeper.Snapshot true ∅ worlds in
  let files := glob_wav (staging st) in
  files = ["1_42.wav"; "2_43.wav"]
  ∧ NoDup files
  ∧ settled (worlds "1_42.wav") (File 0 500) = true
  ∧ settled (worlds "2_43.wav") (File 0 500) = true
  ∧ sweep "9" worlds files st
    = (st, [Unlink "1_42.wav"; LogError; Unlink "1_42.wav"; LogError])
  ∧ Sweeper.step "9" o (Sweeper.AtHead, st)
    = (Sweeper.AtHead, st,
       [Unlink "1_42.wav"; LogError; Unlink "1_42.wav"; LogError;
        Sweeper.Sleep 500])
  ∧ staging (sweep "9" worlds files st).1 !! "1_42.wav" = Some (File 0 500)
  ∧ occurrences (Unlink "1_42.wav") (sweep "9" worlds files st).2 = 2%nat
  ∧ staging (sweep "9" worlds files st).1 !! "2_43.wav" = Some (File 0 500)
  ∧ occurrences (Unlink "2_43.wav") (sweep "9" worlds files st).2 = 0%nat.
Proof.
  intros st worlds o files.
  assert (files = ["1_42.wav"; "2_43.wav"]) as Hfiles by (by vm_compute).
  split; [done|]. rewrite Hfiles.
  split; [by apply (bool_decide_unpack _); vm_compute|].
  repeat (split; [by vm_compute|]). by vm_compute.
Qed.

(** C7. When the model returns a text that is empty after [strip()], as
    every text made of white space only is, handling the file calls neither
    the name lookup nor the channel and leaves the name cache as it was;
    whenever a message is sent, the model returned a text that is not
    empty after [strip()], and the message carries that stripped text. *)
Theorem blank_transcription_emits_nothing guild_id w name st :
  let r := process_file guild_id w name st in
  (∀ text, transcribe w = Returns text → Py.strip text = "" →
     (∀ a, a ∈ r.2 → a = LogError ∨ a = Unlink name ∨ a = Transcribe name)
     ∧ user_cache r.1 = user_cache st)
  ∧ (∀ text, Py.whitespace_only text = true → Py.strip text = "")
  ∧ (∀ content, Send content ∈ r.2 →
       ∃ text username, transcribe w = Returns text
         ∧ Py.strip text ≠ ""
         ∧ content = username +:+ ": " +:+ Py.strip text).
Proof.
  intros r. subst r. unfold process_file.
  destruct (handle_file_shape guild_id w name st)
    as (fs' & tail & r & (_ & Htail & _)
        & [[-> _]|(f & _ & _ & _ &
            [[-> _]|(t & uid & Ht & Hne & _ & He)])]);
    [| |cbv zeta in He; rewrite He]; cbn [fst snd user_cache];
    rewrite Forall_forall in Htail;
    (split; [|split; [apply strip_whitespace_only|]]).
  - intros _ _ _. split; [|done]. intros a Ha.
    destruct (Htail _ Ha); auto.
  - intros c Hin. destruct (Htail _ Hin); discriminate.
  - intros _ _ _. split; [|done]. intros a [Ha|Ha]%elem_of_app.
    + apply list_elem_of_singleton in Ha. auto.
    + destruct (Htail _ Ha); auto.
  - intros c [Hin|Hin]%elem_of_app.
    + by apply list_elem_of_singleton in Hin.
    + destruct (Htail _ Hin); discriminate.
  - intros text Htext Hblank. congruence.
  - set (g := get_username w uid guild_id (user_cache st)).
    intros c. rewrite !elem_of_app, !list_elem_of_singleton.
    intros [[Hin|[Hin|Hin]]|Hin].
    + discriminate.
    + apply get_username_actions in Hin as [|[|]]; discriminate.
    + injection Hin as ->. by exists t, g.1.1.
    + destruct (Htail _ Hin); discriminate.
Qed.

Lemma blank_transcription_emits_nothing_witness :
  let st := Store {[ "1_42.wav" := File 0 4096 ]} ∅ in
  let w := World 2000 false (Returns "   ") true Raises true true true in
  (∀ a, a ∈ (process_file "9" w "1_42.wav" st).2 →
     a = LogError ∨ a = Unlink "1_42.wav" ∨ a = Transcribe "1_42.wav")
  ∧ user_cache (process_file "9" w "1_42.wav" st).1 = user_cache st.
Proof.
  intros st w.
  apply (proj1 (blank_transcription_emits_nothing "9" w "1_42.wav" st) "   ").
  - reflexivity.
  - by vm_compute.
Defined.

(** C8, as the code has it.  For a file found settled whose size is at most
    the minimum of 1024 bytes the model is not called and no message is
    sent: all that is done is to unlink it, first of all, and, should
    [unlink()] raise, to log the error and try once more.  Where its
    [unlink()] returns, the file is gone and that one call is the whole of
    it. *)
Theorem small_file_deleted_without_transcription guild_id w name st f :
  staging st !! name = Some f →
  SETTLE_THRESHOLD < now w - st_mtime f →
  is_speaking w = false →
  st_size f ≤ MIN_BYTES →
  MIN_BYTES = 1024
  ∧ (∀ a, a ∈ (process_file guild_id w name st).2 →
       a = Unlink name ∨ a = LogError)
  ∧ head (process_file guild_id w name st).2 = Some (Unlink name)
  ∧ user_cache (process_file guild_id w name st).1 = user_cache st
  ∧ (first_unlink_ok w = true →
     process_file guild_id w name st
     = (Store (delete name (staging st)) (user_cache st), [Unlink name])).
Proof.
  intros Hf Hage Hsp Hsz. split; [done|].
  assert (settled w f = true) as Hs by (by apply settled_true).
  assert ((MIN_BYTES <? st_size f) = false) as Hsmall
    by (by apply Z.ltb_ge).
  unfold process_file, handle_file. rewrite Hf, Hs, Hsmall.
  unfold finish, handler, unlink_if_exists. rewrite Hf.
  destruct (first_unlink_ok w); [|rewrite Hf; destruct (second_unlink_ok w)];
    cbn [fst snd app user_cache head];
    (split; [|split; [done|split; [done|done]]]);
    intros a Ha;
    repeat (apply elem_of_cons in Ha as [->|Ha]; [tauto|]);
    by apply elem_of_nil in Ha.
Qed.

Lemma small_file_deleted_without_transcription_witness :
  let st := Store {[ "1_42.wav" := File 0 500 ]} ∅ in
  let w := World 2000 false (Returns "hello") true Raises true true true in
  process_file "9" w "1_42.wav" st
  = (Store (delete "1_42.wav" (staging st)) (user_cache st),
     [Unlink "1_42.wav"]).
Proof.
  intros st w.
  refine (proj2 (proj2 (proj2 (proj2
            (small_file_deleted_without_transcription "9" w "1_42.wav" st
               (File 0 500) _ _ _ _)))) _).
  - by vm_compute.
  - by vm_compute.
  - reflexivity.
  - by vm_compute.
  - reflexivity.
Defined.

(** C8 fails as stated when [unlink()] raises.  A settled file of 500
    bytes, nobody speaking, and an [unlink()] that raises: the file is
    tried at line 196 and again in the handler at line 200, and is still
    there; the model was not called and nothing was sent. *)
Lemma small_file_survives_failing_unlink :
  let st := Store {[ "1_42.wav" := File 0 500 ]} ∅ in
  let w := World 2000 false (Returns "hello") true Raises true false false in
  settled w (File 0 500) = true
  ∧ st_size (File 0 500) ≤ MIN_BYTES
  ∧ handle_file "9" w "1_42.wav" st
    = (st, [Unlink "1_42.wav"; LogError; Unlink "1_42.wav"], true)
  ∧ staging (process_file "9" w "1_42.wav" st).1 !! "1_42.wav"
    = Some (File 0 500).
Proof.
  intros st w. repeat (split; [by vm_compute|]). by vm_compute.
Qed.

(** C9. When the name is not cached and fetching the guild or the member
    raises, [get_username] returns ["User_" + user_id], raising nothing and
    caching nothing; a file whose transcript is attributed to that user is
    then announced under that name.  For user ["42"] the name is
    ["User_42"]. *)
Theorem failed_lookup_falls_back_to_placeholder
    (w : world) (user_id guild_id : string) (cache : gmap string string) :
  cache !! (user_id +:+ "_" +:+ guild_id) = None →
  fetch_guild_ok w = false ∨ fetch_member w = Raises →
  (get_username w user_id guild_id cache).1 = ("User_" +:+ user_id, cache)
  ∧ (∀ name fs f text,
       fs !! name = Some f → settled w f = true → MIN_BYTES < st_size f →
       transcribe w = Returns text → Py.strip text ≠ "" →
       user_id_of (Py.stem name) = Some user_id →
       Send (("User_" +:+ user_id) +:+ ": " +:+ Py.strip text)
       ∈ (process_file guild_id w name (Store fs cache)).2)
  ∧ (user_id = "42" →
       (get_username w user_id guild_id cache).1.1 = "User_42").
Proof.
  intros Hmiss Hfail.
  assert ((get_username w user_id guild_id cache).1
          = ("User_" +:+ user_id, cache)) as Hg.
  { unfold get_username. rewrite Hmiss.
    destruct Hfail as [-> | Hm]; [done|].
    destruct (fetch_guild_ok w); [by rewrite Hm | done]. }
  split; [done|]. split.
  - intros name fs f text Hf Hs Hsz Ht Hne Hu. unfold process_file.
    destruct (handle_file_shape guild_id w name (Store fs cache))
      as (fs' & tail & r & _
          & [[_ Hside]|(f' & Hf' & _ & _ &
              [[_ Hside]|(t & uid & Ht' & _ & Hu' & He)])]);
      cbn [staging user_cache] in *.
    + destruct Hside as [?|(f' & Hf' & [?|?])]; [congruence| |];
        assert (f' = f) as -> by congruence; [congruence | lia].
    + destruct Hside as [?|(t & ? & ?)]; congruence.
    + assert (t = text) as -> by congruence.
      assert (uid = user_id) as -> by congruence.
      cbv zeta in He. rewrite He, Hg. cbn [fst snd].
      rewrite !elem_of_app, !list_elem_of_singleton. auto.
  - intros ->. by rewrite Hg.
Qed.

Lemma failed_lookup_falls_back_to_placeholder_witness :
  let w := World 2000 false (Returns " hello ") false Raises true true true in
  (get_username w "42" "9" ∅).1.1 = "User_42".
Proof.
  intros w.
  refine (proj2 (proj2 (failed_lookup_falls_back_to_placeholder w "42" "9" ∅
            _ _)) _).
  - apply lookup_empty.
  - left. reflexivity.
  - reflexivity.
Defined.

Lemma string_app_empty_r (s : string) : s +:+ "" = s.
Proof. induction s as [|c s IH]; [done|]. rewrite string_cons_app. by f_equal. Qed.

(** C10. The user id of a file is a function of the stem of its name alone:
    the whole stem when it has no underscore, otherwise the token between
    the first underscore and the next one (or the end), which is element 1
    of the split and may be empty; this is the id that the sweeper looks
    up. *)
Theorem user_id_is_second_token_of_stem :
  (∀ stem, Py.contains "_" stem = false → user_id_of stem = Some stem)
  ∧ (∀ stem, Py.contains "_" stem = true →
       user_id_of stem = Py.split "_" stem !! 1%nat)
  ∧ (∀ a b rest,
       Py.contains "_" a = false → Py.contains "_" b = false →
       rest = "" ∨ (∃ r, rest = "_" +:+ r) →
       user_id_of (a +:+ "_" +:+ b +:+ rest) = Some b)
  ∧ user_id_of "1700000000_42" = Some "42"
  ∧ user_id_of "42" = Some "42"
  ∧ user_id_of "a__b" = Some ""
  ∧ user_id_of "_42" = Some "42"
  ∧ user_id_of "42_" = Some ""
  ∧ (∀ guild_id w name st user_id,
       FetchMember user_id ∈ (process_file guild_id w name st).2 →
       user_id_of (Py.stem name) = Some user_id).
Proof.
  split; [|split; [|split]].
  - intros stem Hc. unfold user_id_of. by rewrite Hc.
  - intros stem Hc. unfold user_id_of. by rewrite Hc.
  - intros a b rest Ha Hb Hrest. unfold user_id_of.
    change (a +:+ "_" +:+ b +:+ rest) with (a +:+ String "_" (b +:+ rest)).
    rewrite contains_app_sep, (split_first _ _ _ Ha).
    destruct Hrest as [->|[r ->]].
    + by rewrite string_app_empty_r, (split_no_sep _ _ Hb).
    + change (b +:+ "_" +:+ r) with (b +:+ String "_" r).
      by rewrite (split_first _ _ _ Hb).
  - repeat (split; [reflexivity|]).
    intros guild_id w name st user_id. unfold process_file.
    destruct (handle_file_shape guild_id w name st)
      as (fs' & tail & r & (_ & Htail & _)
          & [[-> _]|(f & _ & _ & _ &
              [[-> _]|(t & uid & _ & _ & Hu & He)])]);
      [| |cbv zeta in He; rewrite He]; cbn [fst snd];
      rewrite Forall_forall in Htail.
    + intros Hin. destruct (Htail _ Hin); discriminate.
    + intros [Hin|Hin]%elem_of_app.
      * by apply list_elem_of_singleton in Hin.
      * destruct (Htail _ Hin); discriminate.
    + rewrite !elem_of_app, !list_elem_of_singleton.
      intros [[Hin|[Hin|Hin]]|Hin]; [discriminate| |discriminate|].
      * apply get_username_actions in Hin as [|[|]]; congruence.
      * destruct (Htail _ Hin); discriminate.
Qed.

Lemma user_id_is_second_token_of_stem_witness :
  user_id_of ("1700000000" +:+ "_" +:+ "42" +:+ "_tail") = Some "42".
Proof.
  apply (proj1 (proj2 (proj2 user_id_is_second_token_of_stem))
           "1700000000" "42" "_tail").
  - reflexivity.
  - reflexivity.
  - right. by exists "tail".
Defined.

End SweeperTheorems.

(** * The session flag *)

Section SessionFlag.

(** What the recorder has done when it stands at the loop head or has left
    the loop: nothing yet, or the last cycle was stopped and awaited, or the
    last cycle ended in the error handler. *)
Lemma recorder_head_actions obs :
  ∀ s acts, Recorder.run obs Recorder.AtHead = (s, acts) →
  s = Recorder.AtHead ∨ s = Recorder.Exited →
  acts = []
  ∨ (∃ pre, acts = pre ++ [Recorder.StopRecording; Recorder.AwaitRecording])
  ∨ (∃ pre, acts = pre ++ [Recorder.LogError;
                           Recorder.Sleep RECORDER_BACKOFF]).
Proof.
  induction obs as [|o obs IH] using rev_ind; intros s acts.
  - intros [= <- <-] _. by left.
  - rewrite run_app.
    destruct (Recorder.run obs Recorder.AtHead) as [s1 a1]. simpl.
    destruct (Recorder.step o s1) as [s2 a2] eqn:Hstep.
    intros [= <- <-] Hs. rewrite app_nil_r.
    destruct s1 as [| |start d|]; simpl in Hstep.
    + destruct (Recorder.is_processing o).
      * destruct (Recorder.start_ok o); injection Hstep as <- <-.
        -- by destruct Hs.
        -- right. right. exists (a1 ++ [Recorder.StartRecording]).
           by rewrite <- app_assoc.
      * injection Hstep as <- <-. rewrite app_nil_r.
        apply (IH _ _ eq_refl). by left.
    + injection Hstep as <- <-. by destruct Hs.
    + destruct (Recorder.tick start d o).
      * injection Hstep as <- <-. by destruct Hs.
      * unfold Recorder.finish_cycle in Hstep.
        destruct (Recorder.stop_ok o), (Recorder.flush_ok o);
          injection Hstep as <- <-; simpl.
        -- right. left. by exists a1.
        -- right. right.
           exists (a1 ++ [Recorder.StopRecording; Recorder.AwaitRecording]).
           by rewrite <- app_assoc.
        -- right. right. exists (a1 ++ [Recorder.StopRecording]).
           by rewrite <- app_assoc.
        -- right. right. exists (a1 ++ [Recorder.StopRecording]).
           by rewrite <- app_assoc.
    + injection Hstep as <- <-. rewrite app_nil_r.
      apply (IH _ _ eq_refl). by right.
Qed.

(** X26. Where the loops read [self.is_processing].  Each loop leaves only from
    its head, on reading the flag cleared, and does leave there; the sweeper
    is at its head once per round, after the 0.5 s sleep that ends the
    round; the recorder is at its head only between cycles: within a cycle,
    whose ticks are 0.1 s apart, what it does never depends on the flag.
    When the recorder has left, either it never started a capture, or the
    last capture was stopped and awaited, or the last cycle ended in the
    error handler. *)
Theorem flag_is_read_at_loop_heads_only :
  (∀ o s, (Recorder.step o s).1 = Recorder.Exited →
     s = Recorder.Exited
     ∨ (s = Recorder.AtHead ∧ Recorder.is_processing o = false))
  ∧ (∀ o, Recorder.is_processing o = false →
       Recorder.step o Recorder.AtHead = (Recorder.Exited, []))
  ∧ (∀ b o start_time d,
       Recorder.step (Recorder.with_is_processing b o)
         (Recorder.Ticking start_time d)
       = Recorder.step o (Recorder.Ticking start_time d)
       ∧ Recorder.step (Recorder.with_is_processing b o) Recorder.Starting
         = Recorder.step o Recorder.Starting)
  ∧ (∀ o start_time d d',
       Recorder.tick start_time d o = Recorder.Continue d' →
       Recorder.step o (Recorder.Ticking start_time d)
       = (Recorder.Ticking start_time d', [Recorder.Sleep 100]))
  ∧ (∀ guild_id o s st, (Sweeper.step guild_id o (s, st)).1.1 = Sweeper.Exited →
       s = Sweeper.Exited
       ∨ (s = Sweeper.AtHead ∧ Sweeper.is_processing o = false))
  ∧ (∀ guild_id o st, Sweeper.is_processing o = false →
       Sweeper.step guild_id o (Sweeper.AtHead, st) = (Sweeper.Exited, st, []))
  ∧ (∀ guild_id o st, Sweeper.is_processing o = true →
       ∃ st' acts,
         Sweeper.step guild_id o (Sweeper.AtHead, st)
         = (Sweeper.AtHead, st', acts ++ [Sweeper.Sleep 500]))
  ∧ (∀ obs acts,
       Recorder.run obs Recorder.AtHead = (Recorder.Exited, acts) →
       acts = []
       ∨ (∃ pre, acts = pre ++ [Recorder.StopRecording;
                                Recorder.AwaitRecording])
       ∨ (∃ pre, acts = pre ++ [Recorder.LogError; Recorder.Sleep 500])).
Proof.
  split; [|split; [|split; [|split; [|split; [|split; [|split]]]]]].
  - intros o s. destruct s as [| |start d|]; simpl.
    + destruct (Recorder.is_processing o); [|by right].
      by destruct (Recorder.start_ok o).
    + done.
    + destruct (Recorder.tick start d o); [done|].
      unfold Recorder.finish_cycle.
      by destruct (Recorder.stop_ok o), (Recorder.flush_ok o).
    + by left.
  - intros o Ho. simpl. by rewrite Ho.
  - intros b o start d. by destruct o.
  - intros o start d d' Ht. simpl. by rewrite Ht.
  - intros guild_id o s st. destruct s; simpl; [|by left].
    destruct (Sweeper.is_processing o); [|by right].
    by destruct (Sweeper.sweep _ _ _ _).
  - intros guild_id o st Ho. simpl. by rewrite Ho.
  - intros guild_id o st Ho. simpl. rewrite Ho.
    destruct (Sweeper.sweep _ _ _ _) as [st' acts]. by exists st', acts.
  - intros obs acts Hrun.
    apply (recorder_head_actions obs _ _ Hrun). by right.
Qed.

Lemma flag_is_read_at_loop_heads_only_witness :
  Recorder.step (Recorder.Snapshot 0 false false 0 true true true)
    Recorder.AtHead = (Recorder.Exited, []).
Proof.
  apply (proj1 (proj2 flag_is_read_at_loop_heads_only)
           (Recorder.Snapshot 0 false false 0 true true true)).
  reflexivity.
Defined.

(** C4. The recorder does not observe a cleared flag within one 0.1 s tick.
    Here the flag is set when the loop starts a cycle and is cleared before
    the cycle begins to tick; each of the next 200 readings, 0.1 s apart,
    finds it cleared, and after them the loop is still inside the cycle: it
    has not left and has not stopped the capture. *)
Lemma recorder_keeps_ticking_after_flag_cleared :
  let head := Recorder.Snapshot 0 true false 0 true true true in
  let cleared := Scenario.cleared_ticks 0 200 in
  Forall (λ o, Recorder.is_processing o = false) cleared
  ∧ length cleared = 200%nat
  ∧ (Recorder.run (head :: cleared) Recorder.AtHead).1
    = Recorder.Ticking 0 20000
  ∧ (Recorder.run (head :: cleared) Recorder.AtHead).1 ≠ Recorder.Exited
  ∧ (Recorder.StopRecording
     ∉ (Recorder.run (head :: cleared) Recorder.AtHead).2).
Proof.
  intros head cleared.
  assert ((Recorder.run (head :: cleared) Recorder.AtHead).1
          = Recorder.Ticking 0 20000) as Hst by (by vm_compute).
  split; [|split; [by vm_compute|split; [done|split]]].
  - apply Forall_fmap, Forall_true. done.
  - by rewrite Hst.
  - apply (bool_decide_unpack _). by vm_compute.
Qed.

End SessionFlag.

(** * Further properties of the tracker *)

Section TrackerTheorems.
Import Scenario Events.

Lemma deliver_app self_id evs1 evs2 tr :
  deliver self_id (evs1 ++ evs2) tr
  = deliver self_id evs2 (deliver self_id evs1 tr).
Proof. revert tr. induction evs1 as [|e evs1 IH]; intros tr; simpl; auto. Qed.

Lemma deliver_own self_id evs tr :
  Forall (λ e, own self_id e = true) evs → deliver self_id evs tr = tr.
Proof.
  induction 1 as [|e evs He _ IH]; simpl; [done|].
  unfold own in He. unfold Tracker.on_voice_state_update.
  destruct (payload e) as [a|]; [|done]. by rewrite He.
Qed.

(** X1. The tracker keeps only the most recent event that is not the bot's
    own, whoever it is from: after it, and after any number of the bot's
    own events, [is_speaking] is that event's speaking bit (false when the
    event has no [after]); [last_speech_time] is its clock reading when it
    reports speech and is otherwise left as the earlier events set it, so a
    report of silence does not refresh it. *)
Theorem most_recent_event_wins
    self_id (pre post : list timed_event) (e : timed_event) tr :
  own self_id e = false →
  Forall (λ x, own self_id x = true) post →
  Tracker.is_speaking (deliver self_id (pre ++ e :: post) tr) = speaks e
  ∧ Tracker.last_speech_time (deliver self_id (pre ++ e :: post) tr)
    = (if speaks e then at_ms e
       else Tracker.last_speech_time (deliver self_id pre tr)).
Proof.
  intros He Hpost. rewrite deliver_app. simpl.
  rewrite (deliver_own _ _ _ Hpost).
  unfold own in He. unfold speaks, Tracker.on_voice_state_update.
  destruct (payload e) as [a|]; [|done].
  rewrite He. by destruct (Tracker.speaking a).
Qed.

Lemma most_recent_event_wins_witness :
  let a := At 0 (Some (Tracker.After "7" true)) in
  let b := At 3000 (Some (Tracker.After "8" false)) in
  let own_ev := At 4000 (Some (Tracker.After "bot" true)) in
  Tracker.is_speaking
    (deliver "bot" ([a] ++ b :: [own_ev]) (Tracker.Mk false (-5))) = false
  ∧ Tracker.last_speech_time
      (deliver "bot" ([a] ++ b :: [own_ev]) (Tracker.Mk false (-5))) = 0.
Proof.
  intros a b own_ev.
  apply (most_recent_event_wins "bot" [a] [own_ev] b (Tracker.Mk false (-5))).
  - reflexivity.
  - repeat constructor.
Defined.

(** X2. [last_speech_time] is never invented: after any events it is the
    value it had before them or the clock reading of one of them that
    reported speech by someone other than the bot. *)
Theorem last_speech_time_provenance self_id (evs : list timed_event) tr :
  Tracker.last_speech_time (deliver self_id evs tr)
  = Tracker.last_speech_time tr
  ∨ ∃ e, e ∈ evs ∧ own self_id e = false ∧ speaks e = true
         ∧ Tracker.last_speech_time (deliver self_id evs tr) = at_ms e.
Proof.
  induction evs as [|e evs IH] using rev_ind; [by left|].
  rewrite deliver_app. simpl.
  unfold Tracker.on_voice_state_update.
  destruct (payload e) as [a|] eqn:Hp.
  - destruct (bool_decide (Tracker.user_id a = self_id)) eqn:Hown.
    + destruct IH as [IH|(e0 & Hin & ? & ? & ?)]; [by left|].
      right. exists e0. rewrite elem_of_app. repeat split; auto.
    + destruct (Tracker.speaking a) eqn:Hsp; simpl.
      * right. exists e. unfold own, speaks. rewrite Hp, Hown, Hsp.
        rewrite elem_of_app, list_elem_of_singleton. repeat split; auto.
      * destruct IH as [IH|(e0 & Hin & ? & ? & ?)]; [by left|].
        right. exists e0. rewrite elem_of_app. repeat split; auto.
  - simpl. destruct IH as [IH|(e0 & Hin & ? & ? & ?)]; [by left|].
    right. exists e0. rewrite elem_of_app. repeat split; auto.
Qed.

End TrackerTheorems.

(** * Further properties of the recording loop *)

Section RecorderMore.
Import Recorder RecorderLog.

(** X3. The target of a cycle is never raised without speech: whatever the
    cycle has read, its target is the one it began with or
    [elapsed + GRACE_SECONDS] of one of its ticks that read speaking. *)
Theorem target_raised_only_by_speech start_time (obs : list snapshot) :
  ∀ d,
  target_duration (inner_loop start_time d obs) = d
  ∨ ∃ o, o ∈ obs ∧ is_speaking o = true
         ∧ target_duration (inner_loop start_time d obs)
           = clock o - start_time + GRACE_SECONDS.
Proof.
  induction obs as [|o obs IH]; intros d; simpl; [by left|].
  unfold tick. destruct (is_speaking o) eqn:Hsp.
  - destruct (IH (Z.max d (clock o - start_time + GRACE_SECONDS)))
      as [Heq|(o' & Hin & Hsp' & Heq)].
    + rewrite Heq.
      destruct (Z.max_spec d (clock o - start_time + GRACE_SECONDS))
        as [[_ ->]|[_ ->]].
      * right. exists o. split; [apply list_elem_of_here|done].
      * by left.
    + right. exists o'. split; [by apply list_elem_of_further|done].
  - destruct (_ && _); simpl; [by left|].
    destruct (IH d) as [Heq|(o' & Hin & Hsp' & Heq)]; [by left|].
    right. exists o'. split; [by apply list_elem_of_further|done].
Qed.

(** X4. A cycle that hears no speech ends: when no tick up to and including
    [o] reads speaking and [o] is read at least [SILENCE_HOLD] after the
    last speech and at an elapsed time of at least the target, the inner
    loop breaks at [o] or before it, with its target unchanged. *)
Theorem silent_cycle_stops
    start_time d (pre post : list snapshot) (o : snapshot) :
  Forall (λ x, is_speaking x = false) pre →
  is_speaking o = false →
  SILENCE_HOLD ≤ clock o - last_speech_time o →
  d ≤ clock o - start_time →
  ∃ stop_clock rest,
    inner_loop start_time d (pre ++ o :: post) = Stopped d stop_clock rest
    ∧ (length post ≤ length rest)%nat.
Proof.
  intros Hpre Ho Hhold Hel.
  induction Hpre as [|x pre Hx _ IH]; simpl.
  - assert (tick start_time d o = Break) as -> by (by apply tick_break_iff).
    by exists (clock o), post.
  - unfold tick. rewrite Hx. destruct (_ && _).
    + exists (clock x), (pre ++ o :: post). split; [done|].
      rewrite length_app. simpl. lia.
    + exact IH.
Qed.

Lemma silent_cycle_stops_witness :
  let quiet t := Snapshot t true false 0 true true true in
  let post := [quiet 20100] in
  ∃ stop_clock rest,
    inner_loop 0 20000 ([quiet 19900] ++ quiet 20000 :: post)
    = Stopped 20000 stop_clock rest
    ∧ (length post ≤ length rest)%nat.
Proof.
  intros quiet post.
  apply (silent_cycle_stops 0 20000 [quiet 19900] post (quiet 20000)).
  - repeat constructor.
  - reflexivity.
  - by vm_compute.
  - by vm_compute.
Defined.

(** X5. A cycle has no maximal length: as long as every tick reads speaking
    the inner loop does not break, however long the ticks go on. *)
Theorem speech_keeps_cycle_open start_time (obs : list snapshot) :
  Forall (λ x, is_speaking x = true) obs →
  ∀ d, ∃ d', inner_loop start_time d obs = Recording d' ∧ d ≤ d'.
Proof.
  induction 1 as [|x obs Hx _ IH]; intros d; simpl.
  - exists d. split; [done|lia].
  - unfold tick. rewrite Hx.
    destruct (IH (Z.max d (clock x - start_time + GRACE_SECONDS)))
      as (d' & -> & Hle).
    exists d'. split; [done|lia].
Qed.

Lemma speech_keeps_cycle_open_witness :
  let talk t := Snapshot t true true t true true true in
  ∃ d', inner_loop 0 20000 [talk 30000; talk 60000] = Recording d'
        ∧ 20000 ≤ d'.
Proof.
  intros talk.
  apply (speech_keeps_cycle_open 0 [talk 30000; talk 60000]).
  repeat constructor.
Defined.

Lemma step_not_exited o s :
  is_processing o = true → s ≠ Exited → (step o s).1 ≠ Exited.
Proof.
  intros Ho Hs. destruct s as [| |start d|]; simpl; [| | |done].
  - rewrite Ho. by destruct (start_ok o).
  - done.
  - destruct (tick start d o); [done|].
    unfold finish_cycle. by destruct (stop_ok o), (flush_ok o).
Qed.

(** X6. No failure ends the recording loop: as long as every reading finds
    [is_processing] set, the loop has not returned, whichever calls to the
    voice provider raised on the way. *)
Theorem recorder_survives_failures (obs : list snapshot) :
  Forall (λ o, is_processing o = true) obs →
  (run obs AtHead).1 ≠ Exited.
Proof.
  induction obs as [|o obs IH] using rev_ind; [done|].
  intros [Hobs Ho]%Forall_app. inversion_clear Ho as [|? ? Ho' _].
  rewrite run_snoc. apply step_not_exited; [exact Ho' | by apply IH].
Qed.

Lemma recorder_survives_failures_witness :
  let failing t := Snapshot t true false 0 false false false in
  (run [failing 0; failing 500; failing 1000] AtHead).1 ≠ Exited.
Proof.
  intros failing.
  apply (recorder_survives_failures [failing 0; failing 500; failing 1000]).
  repeat constructor.
Defined.

Lemma tick_ignores_flag b o start_time d :
  tick start_time d (with_is_processing b o) = tick start_time d o.
Proof. by destruct o. Qed.

(** X7. Within a cycle the flag goes unread: while the inner loop keeps
    going over the ticks [cyc], the loop does the same whatever
    [is_processing] reads at each of them, namely one 0.1 s sleep per tick
    and nothing else; a flag cleared and set again in the meantime, as
    [join] does, leaves no trace. *)
Theorem flag_changes_within_cycle_unnoticed
    (flag : snapshot → bool) start_time (cyc : list snapshot) :
  ∀ d d', inner_loop start_time d cyc = Recording d' →
  run ((λ o, with_is_processing (flag o) o) <$> cyc) (Ticking start_time d)
  = (Ticking start_time d', replicate (length cyc) (Sleep RECORDER_TICK)).
Proof.
  induction cyc as [|o cyc IH]; intros d d'; simpl.
  - by intros [= ->].
  - rewrite tick_ignores_flag.
    destruct (tick start_time d o) as [d1|]; [|discriminate].
    intros Hrest. specialize (IH _ _ Hrest).
    change (list_fmap snapshot snapshot ?f cyc) with (f <$> cyc).
    by rewrite IH.
Qed.

Lemma flag_changes_within_cycle_unnoticed_witness :
  let quiet t := Snapshot t true false 0 true true true in
  run ((λ o, with_is_processing false o) <$> [quiet 100; quiet 200])
    (Ticking 0 20000)
  = (Ticking 0 20000,
     replicate (length [quiet 100; quiet 200]) (Sleep RECORDER_TICK)).
Proof.
  intros quiet.
  apply (flag_changes_within_cycle_unnoticed (λ _, false) 0
           [quiet 100; quiet 200] 20000 20000).
  reflexivity.
Defined.

End RecorderMore.

Section RecorderLogTheorems.
Import Recorder RecorderLog.

Lemma calls_app l1 l2 : calls (l1 ++ l2) = calls l1 ++ calls l2.
Proof. unfold calls. by rewrite filter_app. Qed.

Lemma cycles_snoc (k : nat) :
  concat (replicate k cycle_calls) ++ [StartRecording]
  ++ [StopRecording; AwaitRecording]
  = concat (replicate (S k) cycle_calls).
Proof.
  induction k as [|k IH]; [done|].
  change (replicate (S k) cycle_calls) with (cycle_calls :: replicate k cycle_calls).
  rewrite concat_cons, <- app_assoc, IH. done.
Qed.

(** X8. While no call to the voice provider raises, the loop's own calls
    come in complete cycles: its log without the sleeps is
    [start_recording], [stop_recording], [await new_recording] over and
    over, followed by one more [start_recording] exactly when the loop is
    inside a cycle.  So the loop starts no capture before it has stopped and
    awaited its previous one, every stop is directly followed by the await
    of the capture, and nothing is logged as an error. *)
Theorem captures_paired_without_failures (obs : list snapshot) :
  Forall (λ o, calls_ok o = true) obs →
  ∀ s acts, run obs AtHead = (s, acts) →
  (∃ k : nat,
     calls acts = concat (replicate k cycle_calls)
                  ++ (if in_cycle s then [StartRecording] else []))
  ∧ (LogError ∉ acts).
Proof.
  induction obs as [|o obs IH] using rev_ind; intros Hok s acts.
  - intros [= <- <-]. split; [by exists 0%nat | by intros ?%elem_of_nil].
  - apply Forall_app in Hok as [Hobs Ho].
    inversion_clear Ho as [|? ? Ho' _].
    unfold calls_ok in Ho'.
    apply andb_true_iff in Ho' as [[Hstart Hstop]%andb_true_iff Hflush].
    rewrite run_app.
    destruct (run obs AtHead) as [s1 a1] eqn:Hrun.
    destruct (IH Hobs _ _ eq_refl) as ((k & Hk) & He).
    simpl. destruct (step o s1) as [s2 a2] eqn:Hstep.
    intros [= <- <-]. rewrite app_nil_r, calls_app, Hk.
    assert (LogError ∉ a2 → LogError ∉ a1 ++ a2) as Hno.
    { intros Ha2 [?|?]%elem_of_app; auto. }
    destruct s1 as [| |start d|]; simpl in Hstep.
    + rewrite Hstart in Hstep.
      destruct (is_processing o); injection Hstep as <- <-;
        (split; [exists k; by rewrite !app_nil_r
                | apply Hno; intros Hin; not_listed Hin]).
    + injection Hstep as <- <-.
      split; [exists k; by rewrite !app_nil_r
             | apply Hno; intros Hin; not_listed Hin].
    + destruct (tick start d o).
      * injection Hstep as <- <-.
        split; [exists k; by rewrite !app_nil_r
               | apply Hno; intros Hin; not_listed Hin].
      * unfold finish_cycle in Hstep. rewrite Hstop, Hflush in Hstep.
        injection Hstep as <- <-. split.
        -- exists (S k). cbn [in_cycle]. rewrite app_nil_r.
           rewrite <- cycles_snoc. by rewrite <- app_assoc.
        -- apply Hno. intros Hin. not_listed Hin.
    + injection Hstep as <- <-.
      split; [exists k; by rewrite !app_nil_r
             | apply Hno; intros Hin; not_listed Hin].
Qed.

Lemma backoff_follows_app l1 l2 :
  backoff_follows l1 = true → backoff_follows l2 = true →
  backoff_follows (l1 ++ l2) = true.
Proof.
  intros H1 H2. induction l1 as [|a l1 IH]; [done|].
  destruct a; simpl in *; auto.
  destruct l1 as [|b l1]; [done|]. destruct b; try done. simpl.
  apply andb_true_iff in H1 as [-> H1]. simpl. by apply IH.
Qed.

Lemma step_backoff_follows o s : backoff_follows (step o s).2 = true.
Proof.
  destruct s as [| |start d|]; simpl; [| done | | done].
  - by destruct (is_processing o), (start_ok o).
  - destruct (tick start d o); [done|].
    unfold finish_cycle. by destruct (stop_ok o), (flush_ok o).
Qed.

(** X9. Every failure is followed by the back-off: in the log of any run of
    the loop each logged error is directly followed by the sleep of 0.5 s,
    so a provider that keeps raising is retried at most twice a second. *)
Theorem every_error_backs_off (obs : list snapshot) (s : state) :
  backoff_follows (run obs s).2 = true.
Proof.
  revert s. induction obs as [|o obs IH]; intros s; simpl; [done|].
  pose proof (step_backoff_follows o s) as Hstep.
  destruct (step o s) as [s1 a1]. specialize (IH s1).
  destruct (run obs s1) as [s2 a2]. simpl in *.
  by apply backoff_follows_app.
Qed.

End RecorderLogTheorems.

Lemma captures_paired_without_failures_witness :
  let ok t := Recorder.Snapshot t true false 0 true true true in
  let obs := [ok 0; ok 0; ok 20000; ok 20100] in
  (∃ k : nat,
     RecorderLog.calls (Recorder.run obs Recorder.AtHead).2
     = concat (replicate k RecorderLog.cycle_calls)
       ++ (if RecorderLog.in_cycle (Recorder.run obs Recorder.AtHead).1
           then [Recorder.StartRecording] else []))
  ∧ (Recorder.LogError ∉ (Recorder.run obs Recorder.AtHead).2).
Proof.
  intros ok obs.
  apply (captures_paired_without_failures obs).
  - repeat constructor.
  - by destruct (Recorder.run obs Recorder.AtHead).
Defined.

(** * Further properties of the sweep *)

Section SweeperMore.
Import Sweeper.

Lemma process_file_only_removes guild_id w name st n f :
  staging (process_file guild_id w name st).1 !! n = Some f →
  staging st !! n = Some f.
Proof.
  unfold process_file.
  destruct (process_file_shape guild_id w name st)
    as (fs' & cache' & said & tail & r & -> & ([-> | ->] & _) & _);
    cbn [fst staging]; [done|].
  by intros [_ ?]%lookup_delete_Some.
Qed.

Lemma sweep_keeps_no_new_file guild_id worlds (files : list string) :
  ∀ st name f,
  staging (sweep guild_id worlds files st).1 !! name = Some f →
  staging st !! name = Some f.
Proof.
  induction files as [|x files IH]; intros st name f; [done|].
  pose proof (sweep_cons guild_id worlds x files st) as Hcons.
  cbv zeta in Hcons. destruct Hcons as [[_ ->]|[_ ->]]; cbn [fst].
  - apply process_file_only_removes.
  - intros Hf%IH. by apply process_file_only_removes in Hf.
Qed.

(** X10. A sweep creates and changes no file: whatever is in the directory
    after it was there before it, with the same time stamp and size; and a
    file that is not among those listed for the sweep is after it exactly
    as before. *)
Theorem sweep_only_removes guild_id worlds (files : list string) st :
  (∀ name f,
     staging (sweep guild_id worlds files st).1 !! name = Some f →
     staging st !! name = Some f)
  ∧ (∀ name, name ∉ files →
       staging (sweep guild_id worlds files st).1 !! name
       = staging st !! name).
Proof.
  split.
  - apply sweep_keeps_no_new_file.
  - intros name Hout. by apply sweep_other.
Qed.

Lemma sweep_only_removes_witness :
  let st := Store {[ "1_42.wav" := File 1500 4096 ]} ∅ in
  let worlds := λ _ : string,
    World 2000 false (Returns "hello") true Raises true true true in
  staging st !! "1_42.wav" = Some (File 1500 4096).
Proof.
  intros st worlds.
  apply (proj1 (sweep_only_removes "9" worlds ["1_42.wav"] st) "1_42.wav").
  by vm_compute.
Defined.

(** X11. A round of the loop passes over every file that is not a [.wav]
    file: it is neither transcribed nor unlinked and is in the directory
    after the round as it was before. *)
Theorem round_leaves_other_files guild_id o st name :
  Sweeper.is_processing o = true →
  Py.is_wav name = false →
  staging (Sweeper.step guild_id o (Sweeper.AtHead, st)).1.2 !! name
  = (written o ∪ staging st) !! name
  ∧ (Transcribe name ∉ (Sweeper.step guild_id o (Sweeper.AtHead, st)).2)
  ∧ (Unlink name ∉ (Sweeper.step guild_id o (Sweeper.AtHead, st)).2).
Proof.
  intros Ho Hw. unfold Sweeper.step. rewrite Ho. cbv zeta.
  pose (st0 := Store (written o ∪ staging st) (user_cache st)).
  assert (name ∉ glob_wav (Sweeper.staging st0)) as Hout.
  { intros [Hw' _]%elem_of_glob_wav. congruence. }
  pose proof (sweep_other guild_id (Sweeper.worlds o) _ name Hout st0) as Hk.
  pose proof (λ a, sweep_paths guild_id (Sweeper.worlds o)
                     (glob_wav (Sweeper.staging st0)) a st0) as Hp.
  subst st0.
  destruct (sweep guild_id (Sweeper.worlds o) _ _) as [st' acts].
  simpl in *. split; [done|].
  split; intros [Hin|Hin]%elem_of_app; try not_listed Hin;
    apply Hout; destruct (Hp _ Hin) as [Ht Hu];
    (by apply Ht) || (by apply Hu).
Qed.

Lemma round_leaves_other_files_witness :
  let st := Store {[ "notes.txt" := File 0 4096 ]} ∅ in
  let o := Sweeper.Snapshot true ∅
             (λ _, World 2000 false (Returns "hello") true Raises true true true) in
  staging (Sweeper.step "9" o (Sweeper.AtHead, st)).1.2 !! "notes.txt"
  = (written o ∪ staging st) !! "notes.txt"
  ∧ (Transcribe "notes.txt" ∉ (Sweeper.step "9" o (Sweeper.AtHead, st)).2)
  ∧ (Unlink "notes.txt" ∉ (Sweeper.step "9" o (Sweeper.AtHead, st)).2).
Proof.
  intros st o.
  apply (round_leaves_other_files "9" o st "notes.txt"); reflexivity.
Defined.

(** X12. Provided no [unlink()] raises during the round, a round in which
    every [.wav] file of the directory is found settled empties the
    directory of [.wav] files, whatever the model, the lookup and the
    channel do. *)
Theorem quiet_round_drains_directory guild_id o st :
  Sweeper.is_processing o = true →
  (∀ name, first_unlink_ok (Sweeper.worlds o name) = true) →
  (∀ name f, (written o ∪ staging st) !! name = Some f →
     Py.is_wav name = true → settled (Sweeper.worlds o name) f = true) →
  ∀ name, Py.is_wav name = true →
  staging (Sweeper.step guild_id o (Sweeper.AtHead, st)).1.2 !! name = None.
Proof.
  intros Ho Hunlink Hall name Hw.
  destruct ((written o ∪ staging st) !! name) as [f|] eqn:Hf.
  - by destruct (round_deletes_settled_once guild_id o st name f Ho Hunlink
                   Hw Hf (Hall _ _ Hf Hw)).
  - unfold Sweeper.step. rewrite Ho. cbv zeta.
    pose proof (sweep_keeps_no_new_file guild_id (Sweeper.worlds o)
                  (glob_wav (written o ∪ staging st))
                  (Store (written o ∪ staging st) (user_cache st)) name)
      as Honly.
    destruct (sweep guild_id (Sweeper.worlds o) _ _) as [st' acts].
    simpl in *. destruct (staging st' !! name) as [f|] eqn:Hf'; [|done].
    specialize (Honly f eq_refl). congruence.
Qed.

Lemma quiet_round_drains_directory_witness :
  let st := Store {[ "1_42.wav" := File 0 4096 ]} ∅ in
  let o := Sweeper.Snapshot true {[ "2_43.wav" := File 100 10 ]}
             (λ _, World 2000 false Raises true Raises true true true) in
  staging (Sweeper.step "9" o (Sweeper.AtHead, st)).1.2 !! "2_43.wav" = None.
Proof.
  intros st o.
  apply (quiet_round_drains_directory "9" o st).
  - reflexivity.
  - reflexivity.
  - intros name f Hf _. unfold o, st in Hf. simpl in Hf.
    apply lookup_union_Some_raw in Hf
      as [Hf|[_ Hf]]; apply lookup_singleton_Some in Hf as [_ <-];
      by vm_compute.
  - reflexivity.
Defined.

End SweeperMore.

Section SweeperCounting.
Import Sweeper.

Lemma log_count_app p l1 l2 :
  SweeperLog.count p (l1 ++ l2)
  = (SweeperLog.count p l1 + SweeperLog.count p l2)%nat.
Proof. unfold SweeperLog.count. by rewrite filter_app, length_app. Qed.

Lemma log_count_none p l :
  (∀ a, a ∈ l → p a = false) → SweeperLog.count p l = 0%nat.
Proof.
  unfold SweeperLog.count. induction l as [|x l IH]; [done|]. intros Hl.
  rewrite filter_cons. destruct (decide (p x = true)) as [Hx|_].
  - rewrite (Hl x) in Hx; [done | apply list_elem_of_here].
  - apply IH. intros a Ha. by apply Hl, list_elem_of_further.
Qed.

Lemma get_username_log_counts w user_id guild_id cache :
  SweeperLog.count SweeperLog.is_send
    (get_username w user_id guild_id cache).2 = 0%nat
  ∧ SweeperLog.count SweeperLog.is_transcribe
      (get_username w user_id guild_id cache).2 = 0%nat.
Proof.
  split; apply log_count_none; intros a Ha;
    apply get_username_actions in Ha as [->|[->| ->]]; done.
Qed.

(** Handling one file: at most one call of the model and at most one
    message, and no message without a call of the model. *)
Lemma process_file_log_counts guild_id w name st :
  (SweeperLog.count SweeperLog.is_send (process_file guild_id w name st).2
   ≤ SweeperLog.count SweeperLog.is_transcribe
       (process_file guild_id w name st).2)%nat
  ∧ (SweeperLog.count SweeperLog.is_transcribe
       (process_file guild_id w name st).2 ≤ 1)%nat.
Proof.
  unfold process_file.
  destruct (process_file_shape guild_id w name st)
    as (fs' & cache' & said & tail & r & -> & (_ & Htail & _) & Hsaid).
  cbn [fst snd]. rewrite !log_count_app.
  rewrite Forall_forall in Htail.
  rewrite (log_count_none SweeperLog.is_send tail),
          (log_count_none SweeperLog.is_transcribe tail);
    [|by intros a [-> | ->]%Htail..].
  destruct Hsaid as [-> |[-> |(uid & content & ->)]];
    [vm_compute; lia..|].
  destruct (get_username_log_counts w uid guild_id (user_cache st))
    as [Hs Ht].
  rewrite !log_count_app, Hs, Ht. vm_compute. lia.
Qed.

(** X13. A sweep sends at most one message per call of the model, and calls
    the model at most once per file it was given. *)
Theorem sweep_messages_bounded_by_transcriptions
    guild_id worlds (files : list string) :
  ∀ st,
  (SweeperLog.count SweeperLog.is_send (sweep guild_id worlds files st).2
   ≤ SweeperLog.count SweeperLog.is_transcribe
       (sweep guild_id worlds files st).2)%nat
  ∧ (SweeperLog.count SweeperLog.is_transcribe
       (sweep guild_id worlds files st).2 ≤ length files)%nat.
Proof.
  induction files as [|x files IH]; intros st.
  - vm_compute. lia.
  - pose proof (process_file_log_counts guild_id (worlds x) x st) as [H1 H2].
    pose proof (sweep_cons guild_id worlds x files st) as Hcons.
    cbv zeta in Hcons. destruct Hcons as [[_ ->]|[_ ->]];
      cbn [fst snd length]; rewrite !log_count_app.
    + replace (SweeperLog.count SweeperLog.is_send [LogError])
        with 0%nat by reflexivity.
      replace (SweeperLog.count SweeperLog.is_transcribe [LogError])
        with 0%nat by reflexivity.
      lia.
    + destruct (IH (process_file guild_id (worlds x) x st).1) as [H3 H4].
      lia.
Qed.

(** Where a file is given to the model it is in the directory, settled and
    larger than the minimum. *)
Lemma process_file_transcribes guild_id w name st :
  Transcribe name ∈ (process_file guild_id w name st).2 →
  ∃ f, staging st !! name = Some f ∧ settled w f = true
       ∧ MIN_BYTES < st_size f.
Proof.
  unfold process_file.
  destruct (handle_file_shape guild_id w name st)
    as (fs' & tail & r & (_ & Htail & _)
        & [[-> _]|(f & Hf & Hs & Hsz & _)]).
  - cbn [fst snd]. rewrite Forall_forall in Htail.
    intros Hin. destruct (Htail _ Hin); discriminate.
  - intros _. by exists f.
Qed.

(** X14. The model is given only files that are in the directory when the
    sweep begins, are found settled and are larger than 1024 bytes. *)
Theorem model_gets_only_large_settled_files
    guild_id worlds (files : list string) name :
  ∀ st,
  Transcribe name ∈ (sweep guild_id worlds files st).2 →
  ∃ f, staging st !! name = Some f ∧ settled (worlds name) f = true
       ∧ MIN_BYTES < st_size f.
Proof.
  induction files as [|x files IH]; intros st.
  - by intros ?%elem_of_nil.
  - pose proof (process_file_paths guild_id (worlds x) x st
                  (Transcribe name)) as Hpaths.
    pose proof (process_file_transcribes guild_id (worlds x) x st) as Htr.
    pose proof (process_file_only_removes guild_id (worlds x) x st name)
      as Honly.
    pose proof (sweep_cons guild_id worlds x files st) as Hcons.
    cbv zeta in Hcons. destruct Hcons as [[_ ->]|[_ ->]];
      cbn [fst snd]; intros [Hin|Hin]%elem_of_app.
    + destruct (Hpaths Hin) as [Hx _]. specialize (Hx name eq_refl).
      subst x. by apply Htr.
    + by apply list_elem_of_singleton in Hin.
    + destruct (Hpaths Hin) as [Hx _]. specialize (Hx name eq_refl).
      subst x. by apply Htr.
    + destruct (IH _ Hin) as (f & Hf & Hs & Hsz). exists f. auto.
Qed.

Lemma model_gets_only_large_settled_files_witness :
  let st := Store {[ "1_42.wav" := File 0 4096 ]} ∅ in
  let worlds := λ _ : string, World 2000 false Raises true Raises true true true in
  ∃ f, staging st !! "1_42.wav" = Some f
       ∧ settled (worlds "1_42.wav") f = true ∧ MIN_BYTES < st_size f.
Proof.
  intros st worlds.
  apply (model_gets_only_large_settled_files "9" worlds ["1_42.wav"]
           "1_42.wav" st).
  vm_compute. apply list_elem_of_here.
Defined.

Lemma get_username_cache_grows w user_id guild_id cache k v :
  cache !! k = Some v →
  (get_username w user_id guild_id cache).1.2 !! k = Some v.
Proof.
  intros Hk. unfold get_username.
  destruct (cache !! (user_id +:+ "_" +:+ guild_id)) eqn:Hc; [done|].
  destruct (fetch_guild_ok w); [|done].
  destruct (fetch_member w); [|done]. simpl.
  rewrite lookup_insert_ne; [done|]. congruence.
Qed.

(** X15. A cached name is never replaced or dropped: every entry of the
    name cache is still there, unchanged, after a sweep, so a member who
    changes the display name keeps the old one in the transcripts. *)
Theorem cached_names_are_kept guild_id worlds (files : list string) k v :
  ∀ st, user_cache st !! k = Some v →
  user_cache (sweep guild_id worlds files st).1 !! k = Some v.
Proof.
  induction files as [|x files IH]; intros st Hk; [done|].
  assert (user_cache (process_file guild_id (worlds x) x st).1 !! k = Some v)
    as Hk1.
  { unfold process_file.
    destruct (handle_file_shape guild_id (worlds x) x st)
      as (fs' & tail & r & _
          & [[-> _]|(f & _ & _ & _ &
              [[-> _]|(t & uid & _ & _ & _ & He)])]); [done..|].
    cbv zeta in He. rewrite He. cbn [fst user_cache].
    by apply get_username_cache_grows. }
  pose proof (sweep_cons guild_id worlds x files st) as Hcons.
  cbv zeta in Hcons. destruct Hcons as [[_ ->]|[_ ->]]; cbn [fst];
    [done | by apply IH].
Qed.

Lemma cached_names_are_kept_witness :
  let st := Store {[ "1_42.wav" := File 0 4096 ]} {[ "42_9" := "old" ]} in
  let worlds := λ _ : string,
    World 2000 false (Returns "hi") true
      (Returns (Member (Some "new") "bob")) true true true in
  user_cache (sweep "9" worlds ["1_42.wav"] st).1 !! "42_9" = Some "old".
Proof.
  intros st worlds.
  apply (cached_names_are_kept "9" worlds ["1_42.wav"] "42_9" "old" st).
  by vm_compute.
Defined.

End SweeperCounting.

(** * Further properties of the name lookup *)

Section LookupTheorems.
Import Sweeper.

(** X16. A fetched name is served from the cache from then on: after a
    lookup that missed the cache and fetched the member, any later lookup of
    the same user and guild returns the same name without calling out,
    whatever the platform would answer then. *)
Theorem fetched_name_is_cached
    (w w' : world) (user_id guild_id : string) (cache : gmap string string)
    (m : member) :
  cache !! (user_id +:+ "_" +:+ guild_id) = None →
  fetch_guild_ok w = true →
  fetch_member w = Returns m →
  (get_username w user_id guild_id cache).1.1 = display_or_username m
  ∧ get_username w' user_id guild_id
      (get_username w user_id guild_id cache).1.2
    = (display_or_username m,
       (get_username w user_id guild_id cache).1.2, []).
Proof.
  intros Hmiss Hg Hm.
  assert (get_username w user_id guild_id cache
          = (display_or_username m,
             <[user_id +:+ "_" +:+ guild_id := display_or_username m]> cache,
             [FetchGuild guild_id; FetchMember user_id])) as ->.
  { unfold get_username. by rewrite Hmiss, Hg, Hm. }
  simpl. split; [done|].
  unfold get_username. by rewrite lookup_insert_eq.
Qed.

Lemma fetched_name_is_cached_witness :
  let w := World 0 false Raises true (Returns (Member None "bob")) true true true in
  let w' := World 0 false Raises false Raises true true true in
  (get_username w "42" "9" ∅).1.1 = display_or_username (Member None "bob")
  ∧ get_username w' "42" "9" (get_username w "42" "9" ∅).1.2
    = (display_or_username (Member None "bob"),
       (get_username w "42" "9" ∅).1.2, []).
Proof.
  intros w w'.
  apply (fetched_name_is_cached w w' "42" "9" ∅ (Member None "bob")).
  - apply lookup_empty.
  - reflexivity.
  - reflexivity.
Defined.

(** X17. A failed lookup is not remembered: after a lookup that missed the
    cache and raised, the next lookup of the same user and guild calls out
    again and, when the fetch then succeeds, returns and caches the real
    name. *)
Theorem failed_lookup_is_retried
    (w w' : world) (user_id guild_id : string) (cache : gmap string string)
    (m : member) :
  cache !! (user_id +:+ "_" +:+ guild_id) = None →
  fetch_guild_ok w = false ∨ fetch_member w = Raises →
  fetch_guild_ok w' = true →
  fetch_member w' = Returns m →
  get_username w' user_id guild_id
    (get_username w user_id guild_id cache).1.2
  = (display_or_username m,
     <[user_id +:+ "_" +:+ guild_id := display_or_username m]> cache,
     [FetchGuild guild_id; FetchMember user_id]).
Proof.
  intros Hmiss Hfail Hg Hm.
  assert ((get_username w user_id guild_id cache).1.2 = cache) as ->.
  { unfold get_username. rewrite Hmiss.
    destruct Hfail as [-> | Hf]; [done|].
    destruct (fetch_guild_ok w); [by rewrite Hf | done]. }
  unfold get_username. by rewrite Hmiss, Hg, Hm.
Qed.

Lemma failed_lookup_is_retried_witness :
  let w := World 0 false Raises false Raises true true true in
  let w' := World 0 false Raises true (Returns (Member None "bob")) true true true in
  get_username w' "42" "9" (get_username w "42" "9" ∅).1.2
  = (display_or_username (Member None "bob"),
     <["42" +:+ "_" +:+ "9" := display_or_username (Member None "bob")]> ∅,
     [FetchGuild "9"; FetchMember "42"]).
Proof.
  intros w w'.
  apply (failed_lookup_is_retried w w' "42" "9" ∅ (Member None "bob")).
  - apply lookup_empty.
  - by left.
  - reflexivity.
  - reflexivity.
Defined.

(** No token of a split contains the separator. *)
Lemma split_tokens_no_sep sep s t :
  t ∈ Py.split sep s → Py.contains sep t = false.
Proof.
  revert t. induction s as [|c s IH]; intros t; simpl.
  - by intros ->%list_elem_of_singleton.
  - destruct (bool_decide (c = sep)) eqn:Hc.
    + intros [->|Hin]%elem_of_cons; [done | by apply IH].
    + pose proof (split_nonempty sep s) as Hne.
      destruct (Py.split sep s) as [|t0 ts]; [done|].
      intros [->|Hin]%elem_of_cons.
      * simpl. rewrite Hc. apply IH, list_elem_of_here.
      * by apply IH, list_elem_of_further.
Qed.

Lemma user_id_of_no_underscore stem user_id :
  user_id_of stem = Some user_id → Py.contains "_" user_id = false.
Proof.
  unfold user_id_of. destruct (Py.contains "_" stem) eqn:Hc.
  - intros Hl. apply (split_tokens_no_sep "_" stem).
    by apply list_elem_of_lookup_2 in Hl.
  - by intros [= <-].
Qed.

Lemma cache_key_inj u1 u2 g1 g2 :
  Py.contains "_" u1 = false → Py.contains "_" u2 = false →
  u1 +:+ "_" +:+ g1 = u2 +:+ "_" +:+ g2 → u1 = u2 ∧ g1 = g2.
Proof.
  revert u2. induction u1 as [|c u1 IH]; intros [|c2 u2]; simpl.
  - intros _ _. change ("" +:+ "_" +:+ g1) with (String "_" g1).
    change ("" +:+ "_" +:+ g2) with (String "_" g2). by intros [= ->].
  - destruct (bool_decide (c2 = "_"%char)) eqn:Hc; [done|]. intros _ _.
    change ("" +:+ "_" +:+ g1) with (String "_" g1).
    rewrite string_cons_app. intros [= <- _].
    by apply bool_decide_eq_false in Hc.
  - destruct (bool_decide (c = "_"%char)) eqn:Hc; [done|]. intros _ _.
    change ("" +:+ "_" +:+ g2) with (String "_" g2).
    rewrite string_cons_app. intros [= -> _].
    by apply bool_decide_eq_false in Hc.
  - destruct (bool_decide (c = "_"%char)); [done|].
    destruct (bool_decide (c2 = "_"%char)); [done|].
    intros H1 H2. rewrite !string_cons_app. intros [= -> Hrest].
    destruct (IH u2 H1 H2 Hrest) as [-> ->]. done.
Qed.

(** X18. The ids that the sweeper takes from file names never contain an
    underscore, so the cache key [user_id + "_" + guild_id] built from
    them is unambiguous: equal keys mean the same user and the same
    guild. *)
Theorem extracted_ids_give_unambiguous_keys
    (stem1 stem2 u1 u2 g1 g2 : string) :
  user_id_of stem1 = Some u1 →
  user_id_of stem2 = Some u2 →
  Py.contains "_" u1 = false
  ∧ (u1 +:+ "_" +:+ g1 = u2 +:+ "_" +:+ g2 → u1 = u2 ∧ g1 = g2).
Proof.
  intros H1%user_id_of_no_underscore H2%user_id_of_no_underscore.
  split; [done|]. by apply cache_key_inj.
Qed.

Lemma extracted_ids_give_unambiguous_keys_witness :
  Py.contains "_" "42" = false
  ∧ ("42" +:+ "_" +:+ "9_1" = "42" +:+ "_" +:+ "9_1"
     → "42" = "42" ∧ "9_1" = "9_1").
Proof.
  apply (extracted_ids_give_unambiguous_keys "1700_42_x" "42");
    reflexivity.
Defined.

End LookupTheorems.

(** * Properties of the commands *)

Section SessionTheorems.
Import Session.

(** When [join] spawns the loops. *)
Lemma join_spawn_cases (w : world) (b : bot) :
  (SpawnSweeper ∈ log (join w b) ↔
     ∃ channel voice_state,
       author_voice w = Some channel
       ∧ connect w = Sweeper.Returns voice_state
       ∧ first_send_ok w = true ∧ start_ok w = true)
  ∧ (∀ voice_state, SpawnRecorder voice_state ∈ log (join w b) ↔
       ∃ channel,
         author_voice w = Some channel
         ∧ connect w = Sweeper.Returns voice_state
         ∧ first_send_ok w = true ∧ start_ok w = true).
Proof.
  unfold join, join_failed.
  destruct (author_voice w) as [channel|] eqn:Hv;
    [destruct (connect w) as [vs|] eqn:Hc;
       [destruct (first_send_ok w) eqn:Hs1;
          [destruct (start_ok w) eqn:Hs2|]|]|];
    simpl; (split; [|intros voice_state]); split;
    try (intros Hin; not_listed Hin);
    try (intros (? & ? & ? & ? & ? & ?); congruence);
    try (intros (? & ? & ? & ? & ?); congruence).
  - intros _. by exists channel, vs.
  - intros _. rewrite !elem_of_cons. auto 10.
  - intros Hin.
    repeat (apply elem_of_cons in Hin as [Hin|Hin]; [try discriminate|]);
      [|by apply elem_of_nil in Hin].
    injection Hin as ->. by exists channel.
  - intros (? & _ & [= ->] & _). rewrite !elem_of_cons. auto 10.
Qed.

(** X19. [join] spawns the two loops together or not at all, and exactly
    when the author is in a voice channel and connecting, announcing the
    channel and starting the capture all succeeded; the recorder is given
    the connection that was made.  It then has cleared the flag, slept 1 s,
    set the flag, connected, announced, started the capture and spawned the
    sweeper and the recorder, in this order. *)
Theorem loops_spawned_iff_join_succeeds (w : world) (b : bot) :
  (SpawnSweeper ∈ log (join w b) ↔
     ∃ channel voice_state,
       author_voice w = Some channel
       ∧ connect w = Sweeper.Returns voice_state
       ∧ first_send_ok w = true ∧ start_ok w = true)
  ∧ (∀ voice_state, SpawnRecorder voice_state ∈ log (join w b) ↔
       ∃ channel,
         author_voice w = Some channel
         ∧ connect w = Sweeper.Returns voice_state
         ∧ first_send_ok w = true ∧ start_ok w = true)
  ∧ (∀ voice_state, SpawnRecorder voice_state ∈ log (join w b) →
       ∃ channel,
         join w b
         = Result true (Bot true (Some voice_state))
             [SetProcessing false; Sleep 1000; SetProcessing true;
              Connect channel; Send ("Joined " +:+ channel);
              StartRecording voice_state; SpawnSweeper;
              SpawnRecorder voice_state]).
Proof.
  destruct (join_spawn_cases w b) as [Hsw Hrec].
  split; [exact Hsw|]. split; [exact Hrec|].
  intros vs (channel & Hv & Hc & Hs1 & Hs2)%Hrec. exists channel.
  unfold join. by rewrite Hv, Hc, Hs1, Hs2.
Qed.

(** X20. A [join] that fails leaves the session flag set and spawns no loop
    of its own: whenever the author is in a voice channel, [is_processing]
    is true after [join], also when connecting, announcing or starting the
    capture raised, and then this [join] created neither task; when the
    connection was made, it stays in [current_voice_state].  A recorder or
    sweeper of an earlier session that is still running and reads the flag
    at its loop head after such a [join] therefore does not leave but goes
    on with another cycle or round. *)
Theorem failed_join_leaves_flag_set (w : world) (b : bot) channel :
  author_voice w = Some channel →
  connect w = Sweeper.Raises ∨ first_send_ok w = false ∨ start_ok w = false →
  is_processing (after (join w b)) = true
  ∧ (SpawnSweeper ∉ log (join w b))
  ∧ (∀ voice_state, SpawnRecorder voice_state ∉ log (join w b))
  ∧ (∀ voice_state, connect w = Sweeper.Returns voice_state →
       current_voice_state (after (join w b)) = Some voice_state)
  ∧ (∀ o, Recorder.is_processing o = is_processing (after (join w b)) →
       (Recorder.step o Recorder.AtHead).1 ≠ Recorder.Exited
       ∧ head (Recorder.step o Recorder.AtHead).2
         = Some Recorder.StartRecording)
  ∧ (∀ guild_id o st,
       Sweeper.is_processing o = is_processing (after (join w b)) →
       (Sweeper.step guild_id o (Sweeper.AtHead, st)).1.1 = Sweeper.AtHead).
Proof.
  intros Hv Hfail.
  pose proof (join_spawn_cases w b) as [Hsw Hrec].
  assert (is_processing (after (join w b)) = true) as Hflag.
  { unfold join, join_failed. rewrite Hv.
    destruct (connect w); [|done].
    by destruct (first_send_ok w), (start_ok w). }
  rewrite Hflag. split; [done|]. split; [|split; [|split; [|split]]].
  - intros (? & ? & _ & Hc & Hs1 & Hs2)%Hsw.
    destruct Hfail as [?|[?|?]]; congruence.
  - intros vs (? & _ & Hc & Hs1 & Hs2)%Hrec.
    destruct Hfail as [?|[?|?]]; congruence.
  - intros vs Hc. unfold join, join_failed. rewrite Hv, Hc.
    by destruct (first_send_ok w), (start_ok w).
  - intros o Ho. simpl. rewrite Ho. by destruct (Recorder.start_ok o).
  - intros guild_id o st Ho. simpl. rewrite Ho.
    by destruct (Sweeper.sweep _ _ _ _).
Qed.

Lemma failed_join_leaves_flag_set_witness :
  let w := World (Some "General") false Sweeper.Raises
             true true true true true in
  let b := Bot false None in
  is_processing (after (join w b)) = true
  ∧ (SpawnSweeper ∉ log (join w b))
  ∧ (∀ voice_state, SpawnRecorder voice_state ∉ log (join w b))
  ∧ (∀ voice_state, connect w = Sweeper.Returns voice_state →
       current_voice_state (after (join w b)) = Some voice_state)
  ∧ (∀ o, Recorder.is_processing o = is_processing (after (join w b)) →
       (Recorder.step o Recorder.AtHead).1 ≠ Recorder.Exited
       ∧ head (Recorder.step o Recorder.AtHead).2
         = Some Recorder.StartRecording)
  ∧ (∀ guild_id o st,
       Sweeper.is_processing o = is_processing (after (join w b)) →
       (Sweeper.step guild_id o (Sweeper.AtHead, st)).1.1 = Sweeper.AtHead).
Proof.
  intros w b.
  apply (failed_join_leaves_flag_set w b "General").
  - reflexivity.
  - by left.
Defined.

(** X21. [leave] undoes a successful [join]: it clears the flag, sleeps
    1 s, stops the capture of the connection that [join] made, disconnects
    it and forgets it, in this order, and confirms; the bot is then idle
    with no connection. *)
Theorem leave_undoes_join (w1 w2 : world) (b : bot) channel voice_state :
  author_voice w1 = Some channel →
  connect w1 = Sweeper.Returns voice_state →
  first_send_ok w1 = true → start_ok w1 = true →
  ctx_voice_state w2 = true → stop_ok w2 = true → disconnect_ok w2 = true →
  after (join w1 b) = Bot true (Some voice_state)
  ∧ after (leave w2 (after (join w1 b))) = Bot false None
  ∧ log (leave w2 (after (join w1 b)))
    = [SetProcessing false; Sleep 1000; StopRecording voice_state;
       Disconnect voice_state; Send "Left the voice channel"].
Proof.
  intros Hv Hc Hs1 Hs2 Hvs Hstop Hdis.
  assert (after (join w1 b) = Bot true (Some voice_state)) as ->.
  { unfold join. by rewrite Hv, Hc, Hs1, Hs2. }
  split; [done|]. unfold leave. by rewrite Hvs, Hstop, Hdis.
Qed.

Lemma leave_undoes_join_witness :
  let w1 := World (Some "General") false (Sweeper.Returns "vc1")
              true true true true true in
  let w2 := World None true Sweeper.Raises true true true true true in
  let b := Bot false None in
  after (join w1 b) = Bot true (Some "vc1")
  ∧ after (leave w2 (after (join w1 b))) = Bot false None
  ∧ log (leave w2 (after (join w1 b)))
    = [SetProcessing false; Sleep 1000; StopRecording "vc1";
       Disconnect "vc1"; Send "Left the voice channel"].
Proof.
  intros w1 w2 b.
  apply (leave_undoes_join w1 w2 b "General" "vc1"); reflexivity.
Defined.

End SessionTheorems.

(** * Properties of the word patterns *)

Section PatternTheorems.
Import Patterns.

Example diamond_hello :
  generate_word_patterns (String.list_ascii_of_string "hello") "diamond"
  = Ok (String.list_ascii_of_string <$>
          ["    h"; "   he"; "  hel"; " hell"; "hello";
           " hell"; "  hel"; "   he"; "    h"]).
Proof. reflexivity. Qed.

Lemma diamond_line_length word i :
  (i < length word)%nat → length (diamond_line word i) = length word.
Proof.
  intros Hi. unfold diamond_line, spaces.
  rewrite length_app, length_replicate, length_take. lia.
Qed.

(** X22. The diamond of a word of [n] characters is a block of [2n - 1]
    lines, each [n] characters wide; it reads the same from the bottom as
    from the top, and its middle line is the word itself. *)
Theorem diamond_shape (word : list ascii) :
  length (diamond_word word) = (2 * length word - 1)%nat
  ∧ Forall (λ line, length line = length word) (diamond_word word)
  ∧ reverse (diamond_word word) = diamond_word word
  ∧ (word ≠ [] →
     diamond_word word !! (length word - 1)%nat = Some word).
Proof.
  unfold diamond_word. split; [|split; [|split]].
  - rewrite length_app, !length_fmap, length_reverse, !length_seq. lia.
  - apply Forall_app. split; apply Forall_fmap, Forall_forall; intros i Hi.
    + apply elem_of_seq in Hi. apply diamond_line_length. lia.
    + apply elem_of_reverse, elem_of_seq in Hi.
      apply diamond_line_length. lia.
  - destruct (length word) as [|k]; [done|].
    replace (S k - 1)%nat with k by lia.
    rewrite seq_S. simpl.
    rewrite reverse_app, !fmap_reverse, reverse_involutive.
    rewrite fmap_app, reverse_app. simpl.
    rewrite <- fmap_reverse. by rewrite <- app_assoc.
  - intros Hne.
    assert (0 < length word)%nat as Hpos.
    { destruct word; [done|simpl; lia]. }
    rewrite lookup_app_l by (rewrite length_fmap, length_seq; lia).
    rewrite list_lookup_fmap, lookup_seq_lt by lia. simpl.
    unfold diamond_line.
    replace (length word - (length word - 1) - 1)%nat with 0%nat by lia.
    replace (length word - 1 + 1)%nat with (length word) by lia.
    by rewrite firstn_all.
Qed.

(** X23. The cascade of a word of [n] characters is a block of [n] lines,
    each [n] characters wide; line [i] is [i] blanks followed by the word
    without its first [i] characters, so the first line is the word. *)
Theorem cascade_shape (word : list ascii) :
  length (cascade_word word) = length word
  ∧ Forall (λ line, length line = length word) (cascade_word word)
  ∧ (∀ i, (i < length word)%nat →
       cascade_word word !! i = Some (replicate i " "%char ++ drop i word))
  ∧ (word ≠ [] → head (cascade_word word) = Some word).
Proof.
  unfold cascade_word. split; [|split; [|split]].
  - by rewrite length_fmap, length_seq.
  - apply Forall_fmap, Forall_forall. intros i Hi%elem_of_seq. simpl.
    unfold spaces. rewrite length_app, length_replicate, length_drop. lia.
  - intros i Hi. by rewrite list_lookup_fmap, lookup_seq_lt.
  - intros Hne. destruct word as [|c word]; [done|]. done.
Qed.

End PatternTheorems.

Section SpiralTheorems.
Import Patterns.

Lemma py_index_nat {A} (l : list A) (k : nat) :
  (k < length l)%nat → py_index l (Z.of_nat k) = Some k.
Proof.
  intros Hk. unfold py_index.
  assert ((0 <=? Z.of_nat k) && (Z.of_nat k <? Z.of_nat (length l)) = true)
    as ->.
  { apply andb_true_iff. split; [apply Z.leb_le | apply Z.ltb_lt]; lia. }
  by rewrite Nat2Z.id.
Qed.

Lemma py_get_nat {A} (l : list A) (k : nat) :
  (k < length l)%nat → py_get l (Z.of_nat k) = l !! k.
Proof. intros Hk. unfold py_get. by rewrite py_index_nat. Qed.

Lemma py_set_nat {A} (l : list A) (k : nat) v :
  (k < length l)%nat → py_set l (Z.of_nat k) v = Some (<[k := v]> l).
Proof. intros Hk. unfold py_set. by rewrite py_index_nat. Qed.

(** Writing the next character of the word into the first row. *)
Lemma grid_set_first_row (pre : list ascii) c k others :
  grid_set ((pre ++ replicate (S k) " "%char) :: others)
    0 (Z.of_nat (length pre)) c
  = Some ((pre ++ c :: replicate k " "%char) :: others).
Proof.
  unfold grid_set.
  rewrite (py_get_nat _ 0) by (simpl; lia). simpl.
  rewrite py_set_nat by (rewrite length_app; simpl; lia). simpl.
  rewrite (py_set_nat _ 0) by (simpl; lia). simpl.
  rewrite insert_app_r_alt by lia.
  by replace (length pre - length pre)%nat with 0%nat by lia.
Qed.

(** The walk along the first row: with [pre] written and [rest] still to
    come, the row being exactly as long as the word, the walk ends with the
    whole word in the first row and the other rows as they were. *)
Lemma spiral_walk_first_row (rest : list ascii) :
  ∀ pre others,
  ∃ s, spiral_walk (Z.of_nat (length pre + length rest)) rest
         (Walker ((pre ++ replicate (length rest) " "%char) :: others)
            0 (Z.of_nat (length pre)) 0) = Some s
       ∧ grid s = (pre ++ rest) :: others.
Proof.
  induction rest as [|c rest IH]; intros pre others.
  { simpl. eexists. split; [done|]. done. }
  cbn [spiral_walk]. unfold spiral_step. cbn [grid x y d length].
  rewrite grid_set_first_row. cbn [mbind option_bind].
  change (py_get directions 0) with (Some ((0, 1) : Z * Z)).
  change (py_get directions ((0 + 1) `mod` 4)) with (Some ((1, 0) : Z * Z)).
  cbn [mbind option_bind fst snd]. change (0 + 0) with 0.
  assert ((0 <=? 0) && (0 <? Z.of_nat (length pre + S (length rest)))
          && (0 <=? Z.of_nat (length pre) + 1) = true) as ->.
  { rewrite !andb_true_iff. split; [split|];
      [done | apply Z.ltb_lt; lia | apply Z.leb_le; lia]. }
  rewrite andb_true_l.
  destruct rest as [|c' rest'].
  - (* the last character: the walk turns, and ends *)
    cbn [length].
    assert ((Z.of_nat (length pre) + 1 <? Z.of_nat (length pre + 1)) = false)
      as -> by (apply Z.ltb_ge; lia).
    cbn [mbind option_bind spiral_walk length replicate].
    eexists. split; [done|]. done.
  - (* more to come: the next cell of the row is free *)
    assert ((Z.of_nat (length pre) + 1
             <? Z.of_nat (length pre + S (length (c' :: rest')))) = true)
      as -> by (apply Z.ltb_lt; simpl; lia).
    assert (grid_get
              ((pre ++ c :: replicate (length (c' :: rest')) " "%char)
               :: others) 0 (Z.of_nat (length pre) + 1) = Some " "%char)
      as ->.
    { unfold grid_get. rewrite (py_get_nat _ 0) by (simpl; lia).
      cbn [lookup list_lookup mbind option_bind].
      replace (Z.of_nat (length pre) + 1) with (Z.of_nat (length pre + 1))
        by lia.
      rewrite py_get_nat by (rewrite length_app; simpl; lia).
      rewrite lookup_app_r by lia.
      by replace (length pre + 1 - length pre)%nat with 1%nat by lia. }
    cbn [mbind option_bind]. rewrite bool_decide_eq_true_2 by done.
    cbn [negb].
    destruct (IH (pre ++ [c]) others) as (s & Hs & Hg).
    exists s. split.
    + rewrite <- Hs. cbn [mbind option_bind].
      rewrite <- app_assoc, length_app. cbn [app length].
      replace (Z.of_nat (length pre + 1)) with (Z.of_nat (length pre) + 1)
        by lia.
      by replace (length pre + 1 + S (length rest'))%nat
        with (length pre + S (S (length rest')))%nat by lia.
    + by rewrite Hg, <- app_assoc.
Qed.

(** The rows that the spiral of one word gives. *)
Lemma spiral_word_rows (word : list ascii) :
  word ≠ [] →
  spiral_word word
  = Some (word :: replicate (length word - 1)
                    (replicate (length word) " "%char)).
Proof.
  intros Hne. unfold spiral_word.
  destruct (spiral_walk_first_row word []
              (replicate (length word - 1)
                 (replicate (length word) " "%char))) as (s & Hs & Hg).
  cbn [app length Nat.add] in Hs, Hg. change (Z.of_nat 0) with 0 in Hs.
  assert (replicate (length word) (replicate (length word) " "%char)
          = replicate (length word) " "%char
            :: replicate (length word - 1)
                 (replicate (length word) " "%char)) as ->.
  { destruct word as [|c w]; [done|]. cbn [length].
    by replace (S (length w) - 1)%nat with (length w) by lia. }
  rewrite Hs. cbn [mbind option_bind]. by rewrite Hg.
Qed.

Lemma split_ws_nonempty (s : list ascii) :
  Forall (λ w, w ≠ []) (split_ws s).
Proof.
  induction s as [|c s IH]; simpl; [constructor|].
  destruct (Py.isspace c); [done|].
  destruct s as [|c' s']; [by repeat constructor|].
  destruct (Py.isspace c'); [by constructor|].
  destruct (split_ws (c' :: s')) as [|w ws]; [by repeat constructor|].
  constructor; [done|]. by inversion IH.
Qed.

(** X24. The "spiral" never turns: since the grid is as wide as the word is
    long, the word fills the first row and the walk ends; for each word the
    pattern is the word followed by one line of blanks less than it has
    characters, each as wide as the word.  No text raises an [IndexError]. *)
Theorem spiral_is_first_row_only (text : list ascii) :
  generate_word_patterns text "spiral"
  = Ok (split_ws text ≫=
          λ word, word :: replicate (length word - 1)
                            (replicate (length word) " "%char)).
Proof.
  unfold generate_word_patterns. simpl.
  pose proof (split_ws_nonempty text) as Hne.
  induction Hne as [|w ws Hw _ IH]; [done|].
  rewrite bind_cons. simpl. rewrite (spiral_word_rows _ Hw). simpl.
  destruct (mapM spiral_word ws) as [blocks|]; [|discriminate].
  simpl. by injection IH as ->.
Qed.

End SpiralTheorems.

Section PatternEdges.
Import Patterns.

Lemma split_ws_blank (text : list ascii) :
  Forall (λ c, Py.isspace c = true) text → split_ws text = [].
Proof. induction 1 as [|c text Hc _ IH]; simpl; [done|]. by rewrite Hc. Qed.

(** X25. A text of white space only, the empty text included, has no words:
    each of the three patterns gives no line for it.  A pattern type other
    than the three raises a [ValueError] for every text, the empty one
    included. *)
Theorem blank_text_and_unknown_pattern
    (text : list ascii) (pattern_type : string) :
  (Forall (λ c, Py.isspace c = true) text →
   pattern_type = "diamond" ∨ pattern_type = "spiral"
     ∨ pattern_type = "cascade" →
   generate_word_patterns text pattern_type = Ok [])
  ∧ (pattern_type ≠ "diamond" → pattern_type ≠ "spiral" →
     pattern_type ≠ "cascade" →
     generate_word_patterns text pattern_type = ValueError).
Proof.
  split.
  - intros Hblank Hp. unfold generate_word_patterns.
    rewrite (split_ws_blank _ Hblank).
    by destruct Hp as [->|[->| ->]].
  - intros H1 H2 H3. unfold generate_word_patterns.
    by rewrite !bool_decide_eq_false_2.
Qed.

Lemma blank_text_and_unknown_pattern_witness :
  generate_word_patterns (String.list_ascii_of_string "   ") "cascade"
  = Ok [].
Proof.
  apply (proj1 (blank_text_and_unknown_pattern
                  (String.list_ascii_of_string "   ") "cascade")).
  - repeat constructor.
  - by right; right.
Defined.

End PatternEdges.
